(** * appliance-parts-agent: the chat front end

    A shallow embedding of the TypeScript front end of the PartSelect
    assistant: the line-oriented part parser of [MessageBubble.tsx]
    ([PartList]), the derived fields of [PartCard.tsx], the content gate of
    [MessageBubble], and the session / message-log handlers of
    [ChatInterface.tsx] ([handleSend], [resetChat]).

    JavaScript strings are sequences of UTF-16 code units; they are modelled
    as lists of code units ([N]).  Promise-based handlers are cut at each
    [await] into the synchronous pieces that run between two suspensions. *)

From Stdlib Require Import String Ascii.
From Stdlib Require Import List NArith ZArith Bool Arith Lia.
Import ListNotations.

Open Scope string_scope.
Open Scope list_scope.

(** ** JavaScript string primitives *)

Module Js.

Definition char := N.
Definition str := list char.

(** An ASCII literal as a JavaScript string. *)
Definition lit (s : string) : str := map N_of_ascii (list_ascii_of_string s).

Definition LF : char := 10%N.
Definition DOLLAR : char := 36%N.
Definition LPAREN : char := 40%N.
Definition RPAREN : char := 41%N.
Definition DOT : char := 46%N.
Definition PIPE : char := 124%N.

(** ECMAScript LineTerminator: LF, CR, LS, PS. *)
Definition is_line_terminator (c : char) : bool :=
  ((c =? 10) || (c =? 13) || (c =? 8232) || (c =? 8233))%N.

(** ECMAScript WhiteSpace plus LineTerminator: what [String.prototype.trim]
    strips and what the regular-expression class [\s] matches. *)
Definition is_space (c : char) : bool :=
  ((c =? 9) || (c =? 11) || (c =? 12) || (c =? 32) || (c =? 160)
   || (c =? 5760) || ((8192 <=? c) && (c <=? 8202)) || (c =? 8239)
   || (c =? 8287) || (c =? 12288) || (c =? 65279))%N
  || is_line_terminator c.

(** The class [\d]. *)
Definition is_digit (c : char) : bool := ((48 <=? c) && (c <=? 57))%N.

Fixpoint dropWhile (f : char -> bool) (s : str) : str :=
  match s with
  | [] => []
  | c :: s' => if f c then dropWhile f s' else s
  end.

Fixpoint takeWhile (f : char -> bool) (s : str) : str :=
  match s with
  | [] => []
  | c :: s' => if f c then c :: takeWhile f s' else []
  end.

Definition trimStart (s : str) : str := dropWhile is_space s.
Definition trimEnd (s : str) : str := rev (dropWhile is_space (rev s)).

(** [s.trim()] *)
Definition trim (s : str) : str := trimEnd (trimStart s).

(** A string is falsy exactly when it is empty. *)
Definition truthy (s : str) : bool :=
  match s with [] => false | _ :: _ => true end.

(** [s.startsWith(p)] *)
Fixpoint startsWith (s p : str) {struct p} : bool :=
  match p, s with
  | [], _ => true
  | _ :: _, [] => false
  | a :: p', b :: s' => (a =? b)%N && startsWith s' p'
  end.

(** [s.includes(p)] *)
Fixpoint includes (s p : str) : bool :=
  startsWith s p
  || match s with
     | [] => false
     | _ :: s' => includes s' p
     end.

(** [s.replace(p, r)] for a string pattern [p]: only the first occurrence
    is replaced.  (The source only ever passes the empty replacement, so
    the dollar patterns of the replacement text play no role.) *)
Fixpoint replace (s p r : str) : str :=
  if startsWith s p then r ++ skipn (length p) s
  else match s with
       | [] => []
       | c :: s' => c :: replace s' p r
       end.

(** [s.split(sep)] for a one-character separator. *)
Fixpoint split (s : str) (sep : char) : list str :=
  match s with
  | [] => [[]]
  | c :: s' =>
      if (c =? sep)%N then [] :: split s' sep
      else match split s' sep with
           | l :: ls => (c :: l) :: ls
           | [] => [[c]]
           end
  end.

End Js.
Import Js.

(** ** Regular expressions of the source *)

(** The class [[^)]]. *)
Definition not_rparen (c : char) : bool := negb (c =? RPAREN)%N.

(** The tail [\s+\(([^)]+)\)\s*$] of the title pattern, matched at the
    start of [s]; the result is the text captured by the second group.
    Both greedy runs are forced: [\s+] has to stop at the first character
    that is not white space because that one must be the opening
    parenthesis, and [[^)]+] has to stop at the first closing parenthesis. *)
Definition match_tail (s : str) : option str :=
  match takeWhile is_space s, dropWhile is_space s with
  | _ :: _, c :: r =>
      if (c =? LPAREN)%N then
        match takeWhile not_rparen r, dropWhile not_rparen r with
        | (_ :: _) as id, _ :: r' =>
            if forallb is_space r' then Some id else None
        | _, _ => None
        end
      else None
  | _, _ => None
  end.

(** The lazy first group [(.+?)]: [pre] is what the group has consumed so
    far; it takes one more character (never a line terminator) and hands
    over to the tail, growing only when the tail fails. *)
Fixpoint match_name (pre s : str) : option (str * str) :=
  match s with
  | [] => None
  | c :: s' =>
      if is_line_terminator c then None
      else match match_tail s' with
           | Some id => Some (pre ++ [c], id)
           | None => match_name (pre ++ [c]) s'
           end
  end.

(** [line.match(/^(.+?)\s+\(([^)]+)\)\s*$/)]: the two captured groups. *)
Definition partMatch (line : str) : option (str * str) := match_name [] line.

(** [d.match(/\$[\d.]+/)]: the first dollar sign that is followed by at
    least one digit or dot, with the longest such run. *)
Definition is_price_char (c : char) : bool := is_digit c || (c =? DOT)%N.

Fixpoint priceRegex (s : str) : option str :=
  match s with
  | [] => None
  | c :: s' =>
      if (c =? DOLLAR)%N then
        match takeWhile is_price_char s' with
        | [] => priceRegex s'
        | run => Some (c :: run)
        end
      else priceRegex s'
  end.

(** ** MessageBubble.tsx: the part parser [PartList] *)

Record Part := mkPart {
  name : str;
  partNumber : str;
  details : list str
}.

(** The four mutable locals of [PartList]. *)
Record Scan := mkScan {
  parts : list Part;
  currentPart : option Part;
  introText : str;
  isIntro : bool
}.

Definition scan0 : Scan :=
  {| parts := []; currentPart := None; introText := []; isIntro := true |}.

(** What the loop body decides about line [i] before it touches the state:
    an empty line is skipped, a title opens a part, anything else is
    offered to the open part or to the intro text. *)
Inductive LineClass :=
| Blank
| Title (nm pn : str)
| Other (line : str).

Definition classify (lines : list str) (i : nat) : LineClass :=
  let line := trim (nth i lines []) in
  if negb (truthy line) then Blank
  else match partMatch line with
       | Some (g1, g2) =>
           if (i + 1 <? length lines)%nat && includes (nth (i + 1) lines []) (lit "$")
           then Title (trim g1) (trim g2)
           else Other line
       | None => Other line
       end.

(** The test that lets a line into [currentPart.details]. *)
Definition is_detail (line : str) : bool :=
  includes line (lit "$") || includes line (lit "Product Page:")
  || includes line (lit "Installation:") || includes line (lit "https://").

Definition flush (st : Scan) : list Part :=
  match currentPart st with
  | Some p => parts st ++ [p]
  | None => parts st
  end.

(** One iteration of [for (let i = 0; i < lines.length; i++)]. *)
Definition loop_body (lines : list str) (st : Scan) (i : nat) : Scan :=
  match classify lines i with
  | Blank => st
  | Title nm pn =>
      {| parts := flush st;
         currentPart := Some {| name := nm; partNumber := pn; details := [] |};
         introText := introText st;
         isIntro := false |}
  | Other line =>
      match currentPart st with
      | Some p =>
          if is_detail line then
            {| parts := parts st;
               currentPart :=
                 Some {| name := name p; partNumber := partNumber p;
                         details := details p ++ [line] |};
               introText := introText st;
               isIntro := isIntro st |}
          else st
      | None =>
          if isIntro st then
            {| parts := parts st;
               currentPart := None;
               introText := introText st ++ line ++ [LF];
               isIntro := isIntro st |}
          else st
      end
  end.

Definition scan_lines (lines : list str) : Scan :=
  fold_left (loop_body lines) (seq 0 (length lines)) scan0.

(** The parser proper: the intro text and the parts after the final flush. *)
Definition parseParts (content : str) : str * list Part :=
  let st := scan_lines (split content LF) in
  (introText st, flush st).

(** ** PartCard.tsx: the fields derived from [part.details] *)

Record CardFields := mkCard {
  price : option str;
  brand : option str;
  availability : option str;
  productUrl : option str;
  videoUrl : option str;
  hasVideo : bool
}.

Definition priceOf (ds : list str) : option str :=
  match find (fun d => includes d (lit "$")) ds with
  | Some d => priceRegex d
  | None => None
  end.

Definition brandMatch (ds : list str) : option (list str) :=
  option_map (fun d => split d PIPE) (find (fun d => includes d (lit "|")) ds).

Definition brandOf (ds : list str) : option str :=
  match brandMatch ds with
  | Some fs => option_map trim (nth_error fs 1)
  | None => None
  end.

Definition availabilityOf (ds : list str) : option str :=
  match brandMatch ds with
  | Some fs => option_map trim (nth_error fs 2)
  | None => None
  end.

Definition productUrlOf (ds : list str) : option str :=
  option_map (fun d => trim (replace d (lit "Product Page:") []))
             (find (fun d => includes d (lit "Product Page:")) ds).

Definition videoUrlOf (ds : list str) : option str :=
  option_map (fun d => trim (replace d (lit "Installation Video:") []))
             (find (fun d => includes d (lit "Installation Video:")) ds).

(** [videoUrl && !videoUrl.includes('[Not Available]')], as the truth value
    the JSX guard sees. *)
Definition hasVideoOf (ds : list str) : bool :=
  match videoUrlOf ds with
  | Some u => truthy u && negb (includes u (lit "[Not Available]"))
  | None => false
  end.

Definition PartCard (p : Part) : CardFields :=
  {| price := priceOf (details p);
     brand := brandOf (details p);
     availability := availabilityOf (details p);
     productUrl := productUrlOf (details p);
     videoUrl := videoUrlOf (details p);
     hasVideo := hasVideoOf (details p) |}.

(** ** MessageBubble.tsx: what a bubble shows *)

Inductive Role := user | assistant.

Inductive Date :=
| DateNow (ms : Z)          (* [new Date()] *)
| DateParsed (iso : str).   (* [new Date(response.timestamp)] *)

(** [validationScore] is a number that the front end only copies from the
    response; an integer stands for it. *)
Record ChatMessage := mkMsg {
  role : Role;
  content : str;
  timestamp : Date;
  validationScore : option Z
}.

Inductive ListBody :=
| Cards (cs : list (Part * CardFields))
| Fallback (raw : str).

Record ListView := mkView {
  intro : option str;
  body : ListBody
}.

Definition PartList (content : str) : ListView :=
  let (introText, parts) := parseParts content in
  {| intro := if truthy introText then Some (trim introText) else None;
     body := match parts with
             | [] => Fallback content
             | _ :: _ => Cards (map (fun p => (p, PartCard p)) parts)
             end |}.

Inductive BubbleBody :=
| PlainText (raw : str)
| Structured (v : ListView).

Definition isUser (m : ChatMessage) : bool :=
  match role m with user => true | assistant => false end.

Definition hasPartInfo (m : ChatMessage) : bool :=
  negb (isUser m)
  && (includes (content m) (lit "$")
      || includes (content m) (lit "Product Page:")
      || includes (content m) (lit "partselect.com")).

Definition MessageBubble (m : ChatMessage) : BubbleBody :=
  if hasPartInfo m then Structured (PartList (content m))
  else PlainText (content m).

(** ** lib/api: the remote operations, as the handlers see them *)

Record ChatRequest := mkReq {
  message : str;
  req_session_id : option str;
  enable_validation : option bool;
  validation_threshold : option Z
}.

Record ChatResponse := mkResp {
  response : str;
  session_id : str;
  validation_score : option Z;
  resp_timestamp : str
}.

Inductive ApiCall :=
| ApiCreateSession
| ApiChat (req : ChatRequest)
| ApiDeleteSession (sid : str).

(** How a pending call settles.  A rejection has a reason [err].  When
    the reason is an error object ([Rejected]) the handlers read
    [err.response?.data?.message] from it, present when the server sent
    one.  The reason can also be [null] or [undefined]
    ([RejectedNullish]), on which [err.response] itself throws. *)
Inductive Settled :=
| CreateResolved (data_session_id : str)
| ChatResolved (r : ChatResponse)
| DeleteResolved
| Rejected (server_message : option str)
| RejectedNullish.

Definition is_rejection (o : Settled) : bool :=
  match o with
  | Rejected _ | RejectedNullish => true
  | _ => false
  end.

(** [err.response?.data?.message] of a rejection with an error object. *)
Definition server_message_of (o : Settled) : option str :=
  match o with
  | Rejected m => m
  | _ => None
  end.

(** Modelled from the spec: [lib/api], the RequestGateway behind
    [api.createSession], [api.chat] and [api.deleteSession], is not among
    the sources.  The specification gives the failures of its operations
    as generic transport errors, and the README names Axios as the HTTP
    client: a call of the gateway rejects with an error object, never with
    [null] or [undefined]. *)
Definition gateway_outcome (o : Settled) : bool :=
  match o with
  | RejectedNullish => false
  | _ => true
  end.

(** ** ChatInterface.tsx *)

(** The five [useState] cells. *)
Record State := mkState {
  messages : list ChatMessage;
  input : str;
  loading : bool;
  sessionId : option str;
  error : option str
}.

Definition state0 : State :=
  {| messages := []; input := []; loading := false;
     sessionId := None; error := None |}.

(** An async function suspended at an [await].  [handleSend] keeps the
    [sessionId] of the render it was created in: that is the value its
    continuation compares the response with. *)
Inductive Task :=
| InitAwaitCreate
| SendAwaitChat (closure_sessionId : option str)
| ResetAwaitDelete
| ResetAwaitCreate.

Definition assistantText (text : str) (now : Z) : ChatMessage :=
  {| role := assistant; content := text; timestamp := DateNow now;
     validationScore := None |}.

Definition welcomeMessage : Z -> ChatMessage :=
  assistantText (lit "Hi! I'm your PartSelect assistant. I can help you find replacement parts for dishwashers and refrigerators. What are you looking for today?").

Definition resetMessage : Z -> ChatMessage :=
  assistantText (lit "Chat reset! How can I help you find parts today?").

Definition errorMessage : Z -> ChatMessage :=
  assistantText (lit "Sorry, I encountered an error. Please try again or rephrase your question.").

Definition userMessage (text : str) (now : Z) : ChatMessage :=
  {| role := user; content := text; timestamp := DateNow now;
     validationScore := None |}.

Definition assistantMessage (r : ChatResponse) : ChatMessage :=
  {| role := assistant; content := response r;
     timestamp := DateParsed (resp_timestamp r);
     validationScore := validation_score r |}.

Fixpoint str_eqb (a b : str) : bool :=
  match a, b with
  | [], [] => true
  | x :: a', y :: b' => (x =? y)%N && str_eqb a' b'
  | _, _ => false
  end.

(** [response.session_id !== sessionId], the right side being
    [string | null]. *)
Definition differs (sid : str) (held : option str) : bool :=
  match held with
  | Some h => negb (str_eqb sid h)
  | None => true
  end.

(** [x || undefined] on [string | null]. *)
Definition orUndefined (x : option str) : option str :=
  match x with
  | Some s => if truthy s then Some s else None
  | None => None
  end.

(** [handleSend] up to its [await]: the guard, the optimistic append and
    the request. *)
Definition handleSend (now : Z) (s : State) : State * option (ApiCall * Task) :=
  if negb (truthy (trim (input s))) || loading s then (s, None)
  else
    ({| messages := messages s ++ [userMessage (input s) now];
        input := [];
        loading := true;
        sessionId := sessionId s;
        error := None |},
     Some (ApiChat {| message := input s;
                      req_session_id := orUndefined (sessionId s);
                      enable_validation := Some true;
                      validation_threshold := Some 70%Z |},
           SendAwaitChat (sessionId s))).

(** [handleSend] after the call resolved: the [try] block and [finally]. *)
Definition handleSend_resolved (closure_sessionId : option str)
    (r : ChatResponse) (s : State) : State :=
  {| messages := messages s ++ [assistantMessage r];
     input := input s;
     loading := false;
     sessionId := if differs (session_id r) closure_sessionId
                  then Some (session_id r) else sessionId s;
     error := error s |}.

Definition sendFailedBanner (server_message : option str) : str :=
  match server_message with
  | Some m => if truthy m then m
              else lit "Failed to send message. Please try again."
  | None => lit "Failed to send message. Please try again."
  end.

(** [handleSend] after the call rejected with an error object: [catch]
    and [finally]. *)
Definition handleSend_rejected (server_message : option str) (now : Z)
    (s : State) : State :=
  {| messages := messages s ++ [errorMessage now];
     input := input s;
     loading := false;
     sessionId := sessionId s;
     error := Some (sendFailedBanner server_message) |}.

(** [handleSend] after the call rejected with [null] or [undefined]: the
    [catch] block logs, then [err.response] throws a [TypeError] before
    [setError] and [setMessages] are reached; [finally] still clears the
    loading flag, and the promise of [handleSend] rejects unobserved. *)
Definition handleSend_rejected_nullish (s : State) : State :=
  {| messages := messages s;
     input := input s;
     loading := false;
     sessionId := sessionId s;
     error := error s |}.

(** [resetChat] up to its first [await]: the delete call when a session id
    is held, the create call otherwise. *)
Definition resetChat (s : State) : ApiCall * Task :=
  match orUndefined (sessionId s) with
  | Some sid => (ApiDeleteSession sid, ResetAwaitDelete)
  | None => (ApiCreateSession, ResetAwaitCreate)
  end.

(** [resetChat] after [createSession] resolved. *)
Definition resetChat_created (sid : str) (now : Z) (s : State) : State :=
  {| messages := [resetMessage now];
     input := input s;
     loading := loading s;
     sessionId := Some sid;
     error := None |}.

(** [initSession] after [createSession] resolved, and after it rejected. *)
Definition initSession_created (sid : str) (now : Z) (s : State) : State :=
  {| messages := [welcomeMessage now];
     input := input s;
     loading := loading s;
     sessionId := Some sid;
     error := error s |}.

Definition initSession_rejected (s : State) : State :=
  {| messages := messages s;
     input := input s;
     loading := loading s;
     sessionId := sessionId s;
     error := Some (lit "Failed to connect to the server. Please try again.") |}.

Definition setInput (text : str) (s : State) : State :=
  {| messages := messages s;
     input := text;
     loading := loading s;
     sessionId := sessionId s;
     error := error s |}.

(** *** The component together with its pending calls

    Execution is single-threaded: a handler runs without interruption up
    to its next [await], and a click finds the state cells as the last
    completed piece left them.  Between two pieces anything may happen:
    another click, or the settlement of any pending call. *)

Record System := mkSys {
  ui : State;
  inflight : list Task;       (* suspended handlers, oldest first *)
  calls : list ApiCall;       (* every call issued so far, oldest first *)
  console : list str          (* labels passed to [console.error] *)
}.

(** After mount: the effect has started [initSession]. *)
Definition system0 : System :=
  {| ui := state0; inflight := [InitAwaitCreate];
     calls := [ApiCreateSession]; console := [] |}.

Inductive Event :=
| ClickSend (now : Z)
| TypeInput (text : str)
| ClickReset
| Settle (i : nat) (o : Settled) (now : Z).

Definition remove_nth (i : nat) (ts : list Task) : list Task :=
  firstn i ts ++ skipn (S i) ts.

(** Resume the [i]-th suspended handler with outcome [o]. *)
Definition settle (i : nat) (o : Settled) (now : Z) (sys : System)
  : option System :=
  match nth_error (inflight sys) i with
  | None => None
  | Some t =>
      let rest := remove_nth i (inflight sys) in
      match t, o with
      | InitAwaitCreate, CreateResolved sid =>
          Some {| ui := initSession_created sid now (ui sys);
                  inflight := rest; calls := calls sys;
                  console := console sys |}
      | InitAwaitCreate, (Rejected _ | RejectedNullish) =>
          Some {| ui := initSession_rejected (ui sys);
                  inflight := rest; calls := calls sys;
                  console := console sys ++ [lit "Failed to create session:"] |}
      | SendAwaitChat held, ChatResolved r =>
          Some {| ui := handleSend_resolved held r (ui sys);
                  inflight := rest; calls := calls sys;
                  console := console sys |}
      | SendAwaitChat _, Rejected m =>
          Some {| ui := handleSend_rejected m now (ui sys);
                  inflight := rest; calls := calls sys;
                  console := console sys ++ [lit "Chat error:"] |}
      | SendAwaitChat _, RejectedNullish =>
          Some {| ui := handleSend_rejected_nullish (ui sys);
                  inflight := rest; calls := calls sys;
                  console := console sys ++ [lit "Chat error:"] |}
      | ResetAwaitDelete, DeleteResolved =>
          Some {| ui := ui sys;
                  inflight := rest ++ [ResetAwaitCreate];
                  calls := calls sys ++ [ApiCreateSession];
                  console := console sys |}
      | ResetAwaitCreate, CreateResolved sid =>
          Some {| ui := resetChat_created sid now (ui sys);
                  inflight := rest; calls := calls sys;
                  console := console sys |}
      | ResetAwaitDelete, (Rejected _ | RejectedNullish)
      | ResetAwaitCreate, (Rejected _ | RejectedNullish) =>
          Some {| ui := ui sys;
                  inflight := rest; calls := calls sys;
                  console := console sys ++ [lit "Failed to reset chat:"] |}
      | _, _ => None
      end
  end.

Definition step (e : Event) (sys : System) : option System :=
  match e with
  | ClickSend now =>
      match handleSend now (ui sys) with
      | (s', Some (c, t)) =>
          Some {| ui := s'; inflight := inflight sys ++ [t];
                  calls := calls sys ++ [c]; console := console sys |}
      | (s', None) =>
          Some {| ui := s'; inflight := inflight sys;
                  calls := calls sys; console := console sys |}
      end
  | TypeInput text =>
      Some {| ui := setInput text (ui sys); inflight := inflight sys;
              calls := calls sys; console := console sys |}
  | ClickReset =>
      let (c, t) := resetChat (ui sys) in
      Some {| ui := ui sys; inflight := inflight sys ++ [t];
              calls := calls sys ++ [c]; console := console sys |}
  | Settle i o now => settle i o now sys
  end.

Fixpoint run (es : list Event) (sys : System) : option System :=
  match es with
  | [] => Some sys
  | e :: es' =>
      match step e sys with
      | Some sys' => run es' sys'
      | None => None
      end
  end.

Definition is_chat (t : Task) : bool :=
  match t with SendAwaitChat _ => true | _ => false end.

(** The number of chat requests that are outstanding. *)
Definition outstanding (sys : System) : nat :=
  length (filter is_chat (inflight sys)).

(** ** Reference notions used to state the properties *)

(** [p] occurs in [s]. *)
Definition contains (s p : str) : Prop := exists a b, s = a ++ p ++ b.

(** [a] is what precedes the first occurrence of [p] in [d], [b] what
    follows it. *)
Definition first_occurrence (d p a b : str) : Prop :=
  d = a ++ p ++ b /\
  forall a' b', d = a' ++ p ++ b' -> length a <= length a'.

(** The title pattern read as a shape: a name without line terminators,
    white space, a parenthesised identifier without closing parenthesis,
    optional trailing white space. *)
Definition title_shape (line nm id : str) : Prop :=
  exists ws tr,
    line = nm ++ ws ++ [LPAREN] ++ id ++ [RPAREN] ++ tr /\
    nm <> [] /\ Forall (fun c => is_line_terminator c = false) nm /\
    ws <> [] /\ Forall (fun c => is_space c = true) ws /\
    id <> [] /\ Forall (fun c => c <> RPAREN) id /\
    Forall (fun c => is_space c = true) tr.

(** Line [i] is a title line: its trimmed form has the title shape and
    the raw line after it exists and has a dollar sign. *)
Definition well_formed_title (lines : list str) (i : nat) : Prop :=
  (exists nm id, title_shape (trim (nth i lines [])) nm id) /\
  (exists next, nth_error lines (i + 1) = Some next /\ contains next (lit "$")).

(** A well-formed title + dollar-line pair at line [i]: the trimmed line
    matches the title pattern and the line right after it has a dollar
    sign.  The result is the pair of trimmed captures. *)
Definition title_pair (lines : list str) (i : nat) : option (str * str) :=
  match partMatch (trim (nth i lines [])), nth_error lines (i + 1) with
  | Some (g1, g2), Some next =>
      if includes next (lit "$") then Some (trim g1, trim g2) else None
  | _, _ => None
  end.

Definition title_pairs (lines : list str) : list (str * str) :=
  flat_map (fun i => match title_pair lines i with
                     | Some t => [t]
                     | None => []
                     end)
           (seq 0 (length lines)).

(** The title test in the words of the specification: the pattern
    matches and the next line that survives the blank-line filter has a
    dollar sign. *)
Definition next_kept_line (lines : list str) (i : nat) : option str :=
  find (fun l => truthy (trim l)) (skipn (i + 1) lines).

Definition spec_is_title (lines : list str) (i : nat) : bool :=
  match partMatch (trim (nth i lines [])), next_kept_line lines i with
  | Some _, Some next => includes next (lit "$")
  | _, _ => false
  end.

(** The product URL in the words of the specification: the first detail
    line that begins with the prefix, prefix stripped, remainder trimmed. *)
Definition spec_productUrl (ds : list str) : option str :=
  option_map (fun d => trim (skipn (length (lit "Product Page:")) d))
             (find (fun d => startsWith d (lit "Product Page:")) ds).

(** What [match_tail] recognises, as a shape. *)
Definition tail_shape (s id : str) : Prop :=
  exists ws tr,
    s = ws ++ [LPAREN] ++ id ++ [RPAREN] ++ tr /\
    ws <> [] /\ Forall (fun c => is_space c = true) ws /\
    id <> [] /\ Forall (fun c => c <> RPAREN) id /\
    Forall (fun c => is_space c = true) tr.

Definition heads (ps : list Part) : list (str * str) :=
  map (fun p => (name p, partNumber p)) ps.

Definition title_of (lines : list str) (i : nat) : list (str * str) :=
  match title_pair lines i with
  | Some t => [t]
  | None => []
  end.

(** Every retained detail line passed [is_detail] and is the trimmed form
    of a line of the message. *)
Definition details_ok (lines : list str) (st : Scan) : Prop :=
  forall p d, In p (flush st) -> In d (details p) ->
    is_detail d = true /\ exists l, In l lines /\ d = trim l.

(** While a chat call is outstanding the loading flag is set, and there
    is never more than one. *)
Definition one_chat (sys : System) : Prop :=
  outstanding sys <= 1 /\ (loading (ui sys) = false -> outstanding sys = 0).

(** ** Reference notions for the whole output of the parser *)

Definition is_title (lines : list str) (i : nat) : bool :=
  match title_pair lines i with
  | Some _ => true
  | None => false
  end.

Definition trimmed (lines : list str) (i : nat) : str := trim (nth i lines []).

(** The indices of [idxs] that come before the next title line. *)
Fixpoint until_title (lines : list str) (idxs : list nat) : list nat :=
  match idxs with
  | [] => []
  | i :: rest => if is_title lines i then [] else i :: until_title lines rest
  end.

(** The marked lines among [idxs], up to the next title line. *)
Definition details_among (lines : list str) (idxs : list nat) : list str :=
  filter is_detail (map (trimmed lines) (until_title lines idxs)).

(** What the part whose title is line [t] owns: the marked lines between
    its title and the next title (or the end of the message). *)
Definition details_after (lines : list str) (t : nat) : list str :=
  details_among lines (seq (S t) (length lines - S t)).

Definition part_at (lines : list str) (t : nat) : list Part :=
  match title_pair lines t with
  | Some (nm, pn) =>
      [{| name := nm; partNumber := pn; details := details_after lines t |}]
  | None => []
  end.

(** The parts of a message, one per title line, each computed on its own. *)
Definition spec_parts (lines : list str) : list Part :=
  flat_map (part_at lines) (seq 0 (length lines)).

Definition intro_line (lines : list str) (i : nat) : str :=
  if truthy (trimmed lines i) then trimmed lines i ++ [LF] else [].

(** The non-blank lines before the first title line, trimmed, each with a
    line feed after it. *)
Definition spec_intro (lines : list str) : str :=
  flat_map (intro_line lines) (until_title lines (seq 0 (length lines))).

(** The open part of [st] with [ds] added to its details, after the parts
    already closed. *)
Definition flush_with (st : Scan) (ds : list str) : list Part :=
  match currentPart st with
  | Some p =>
      parts st ++ [{| name := name p; partNumber := partNumber p;
                      details := details p ++ ds |}]
  | None => parts st
  end.

Fixpoint parts_among (lines : list str) (idxs : list nat) : list Part :=
  match idxs with
  | [] => []
  | i :: rest =>
      match title_pair lines i with
      | Some (nm, pn) =>
          [{| name := nm; partNumber := pn;
              details := details_among lines rest |}]
      | None => []
      end ++ parts_among lines rest
  end.

(** The scan still collects intro text: no part is open and no title has
    been seen. *)
Definition collecting (st : Scan) : bool :=
  match currentPart st with
  | None => isIntro st
  | Some _ => false
  end.

(** A string that, when not empty, begins with a character that is not
    white space. *)
Definition starts_solid (s : str) : Prop :=
  match s with
  | [] => True
  | c :: _ => is_space c = false
  end.

(** ** PartCard.tsx: what the card shows

    The JSX of [PartCard] guards each optional element with [x && ...]; a
    guard lets its element through when [x] is a non-empty string. *)

Definition shown (x : option str) : option str :=
  match x with
  | Some s => if truthy s then Some s else None
  | None => None
  end.

Record CardView := mkCardView {
  priceBlock : option str;        (* the price, top right *)
  inStockLine : option str;       (* green line under the price *)
  brandChip : option str;
  availabilityChip : option str;  (* yellow chip *)
  productLink : option str;       (* href of View Product *)
  videoLink : option str          (* href of Install Video *)
}.

Definition renderCard (c : CardFields) : CardView :=
  {| priceBlock := shown (price c);
     inStockLine :=
       match shown (price c), shown (availability c) with
       | Some _, Some a => if includes a (lit "In Stock") then Some a else None
       | _, _ => None
       end;
     brandChip := shown (brand c);
     availabilityChip :=
       match shown (availability c) with
       | Some a => if includes a (lit "In Stock") then None else Some a
       | None => None
       end;
     productLink := shown (productUrl c);
     videoLink := if hasVideo c then videoUrl c else None |}.

(** The next character, if any, could continue a price. *)
Definition price_continues (b : str) : Prop :=
  match b with
  | [] => False
  | c :: _ => is_price_char c = true
  end.

Definition no_pipe (f : str) : Prop := Forall (fun c => c <> PIPE) f.

(** ** Reference notions for the calls and the flags *)

(** What every call the component issues looks like: a chat request
    carries a message that is not blank, asks for validation with
    threshold 70 and names a session only by a non-empty id; a delete
    call names a non-empty id. *)
Definition well_formed_call (c : ApiCall) : Prop :=
  match c with
  | ApiCreateSession => True
  | ApiChat r =>
      (exists ch, In ch (message r) /\ is_space ch = false)
      /\ enable_validation r = Some true
      /\ validation_threshold r = Some 70%Z
      /\ match req_session_id r with
         | Some sid => sid <> []
         | None => True
         end
  | ApiDeleteSession sid => sid <> []
  end.

(** The loading flag says whether a chat call is outstanding. *)
Definition loading_in_step (sys : System) : Prop :=
  outstanding sys = if loading (ui sys) then 1 else 0.

(** ** Sample messages and states *)

Definition doorBin : str :=
  lit "Door Bin (PS123)" ++ [LF] ++ lit "$45.00 | Whirlpool | In Stock" ++ [LF]
  ++ lit "Product Page: https://x" ++ [LF]
  ++ lit "Installation Video: [Not Available]".

Definition blankSeparated : str :=
  lit "Door Bin (PS123)" ++ [LF; LF] ++ lit "$45.00".

Definition twoParts : str :=
  lit "We found these:" ++ [LF] ++ lit "Door Bin (PS123)" ++ [LF]
  ++ lit "$45.00 | Whirlpool | In Stock" ++ [LF] ++ [LF]
  ++ lit "  Ice Maker  (PS9 88) " ++ [LF] ++ lit "Price: $120" ++ [LF]
  ++ lit "Gasket (none)" ++ [LF] ++ lit "call us".

Definition interiorMention : str :=
  lit "Door Bin (PS123)" ++ [LF] ++ lit "$45.00" ++ [LF]
  ++ lit "See Product Page: https://x".

Definition doorBinPart : Part :=
  {| name := lit "Door Bin"; partNumber := lit "PS123";
     details := [lit "$45.00 | Whirlpool | In Stock";
                 lit "Product Page: https://x"] |}.

Definition titleWithoutPrice : ChatMessage :=
  {| role := assistant;
     content := lit "Door Bin (PS123)" ++ [LF] ++ lit "ask for a quote";
     timestamp := DateNow 0; validationScore := None |}.

Definition notAvailableLine : str := lit "Installation Video: [Not Available]".

Definition reply : ChatResponse :=
  {| response := lit "Sure, which model?"; session_id := lit "A";
     validation_score := Some 90%Z;
     resp_timestamp := lit "2025-01-01T00:00:00Z" |}.

(** A session is active and one exchange has taken place. *)
Definition oneExchange : list Event :=
  [Settle 0 (CreateResolved (lit "A")) 0; TypeInput (lit "hi");
   ClickSend 1; Settle 0 (ChatResolved reply) 2].

(** The user sends a message and presses New Chat before the reply is
    back; the reset completes first. *)
Definition resetDuringSend : list Event :=
  [Settle 0 (CreateResolved (lit "A")) 0; TypeInput (lit "hi");
   ClickSend 1; ClickReset; Settle 1 DeleteResolved 2;
   Settle 1 (CreateResolved (lit "B")) 3; Settle 0 (ChatResolved reply) 4].

Definition activeSys : System :=
  {| ui := {| messages := [welcomeMessage 0]; input := lit "hi";
              loading := false; sessionId := Some (lit "A"); error := None |};
     inflight := []; calls := [ApiCreateSession]; console := [] |}.

Definition pendingSys : System :=
  {| ui := {| messages := [welcomeMessage 0; userMessage (lit "hi") 1];
              input := lit "again"; loading := true;
              sessionId := Some (lit "A"); error := None |};
     inflight := [SendAwaitChat (Some (lit "A"))];
     calls := [ApiCreateSession;
               ApiChat {| message := lit "hi";
                          req_session_id := Some (lit "A");
                          enable_validation := Some true;
                          validation_threshold := Some 70%Z |}];
     console := [] |}.

Definition saleThenPrice : Part :=
  {| name := lit "Door Bin"; partNumber := lit "PS123";
     details := [lit "Save $ today"; lit "$45.00 | Whirlpool | In Stock"] |}.

Definition brandOnly : Part :=
  {| name := lit "Door Bin"; partNumber := lit "PS123";
     details := [lit "$45.00 | Whirlpool"] |}.

Definition inStockNoPrice : Part :=
  {| name := lit "Door Bin"; partNumber := lit "PS123";
     details := [lit "Price on request $ | Whirlpool | In Stock"] |}.

(** * Properties *)

(** ** Strings *)

Example trim_example : trim (lit "  Door Bin  ") = lit "Door Bin".
Proof. reflexivity. Qed.

Example split_example :
  split (lit "$45.00 | Whirlpool | In Stock") PIPE
  = [lit "$45.00 "; lit " Whirlpool "; lit " In Stock"].
Proof. reflexivity. Qed.

Example replace_example :
  replace (lit "a Product Page: b Product Page: c") (lit "Product Page:") []
  = lit "a  b Product Page: c".
Proof. reflexivity. Qed.

Example priceRegex_example :
  priceRegex (lit "about $ or $45.00 each item") = Some (lit "$45.00").
Proof. reflexivity. Qed.

(** The first group is lazy but the pattern is anchored at the end, so the
    name runs up to the last parenthesised group. *)
Example partMatch_example :
  partMatch (lit "Ice Maker (white) (PS9 88)")
  = Some (lit "Ice Maker (white)", lit "PS9 88").
Proof. reflexivity. Qed.

Lemma startsWith_app : forall p b, startsWith (p ++ b) p = true.
Proof.
  induction p as [|c p IH]; intros b; simpl.
  - reflexivity.
  - rewrite N.eqb_refl. apply IH.
Qed.

Lemma startsWith_inv : forall p s,
  startsWith s p = true -> exists b, s = p ++ b.
Proof.
  induction p as [|c p IH]; intros s H.
  - exists s. reflexivity.
  - destruct s as [|d s]; simpl in H; [discriminate|].
    apply andb_true_iff in H as [Hc Hs].
    apply N.eqb_eq in Hc. subst d.
    destruct (IH _ Hs) as [b ->]. exists b. reflexivity.
Qed.

Lemma includes_unfold : forall s p,
  includes s p =
  startsWith s p || match s with [] => false | _ :: s' => includes s' p end.
Proof. intros [|c s] p; reflexivity. Qed.

Lemma includes_spec : forall s p, includes s p = true <-> contains s p.
Proof.
  intros s p. split.
  - induction s as [|c s IH]; rewrite includes_unfold; intros H.
    + rewrite orb_false_r in H. destruct (startsWith_inv _ _ H) as [b Hb].
      exists [], b. exact Hb.
    + apply orb_true_iff in H as [H|H].
      * destruct (startsWith_inv _ _ H) as [b Hb]. exists [], b. exact Hb.
      * destruct (IH H) as (a & b & ->). exists (c :: a), b. reflexivity.
  - intros (a & b & ->). induction a as [|c a IH].
    + rewrite includes_unfold. simpl app. rewrite startsWith_app. reflexivity.
    + simpl. rewrite IH. apply orb_true_r.
Qed.

Lemma takeWhile_dropWhile : forall f s, takeWhile f s ++ dropWhile f s = s.
Proof.
  intros f s. induction s as [|c s IH]; simpl; [reflexivity|].
  destruct (f c); simpl; [rewrite IH|]; reflexivity.
Qed.

Lemma takeWhile_all : forall f s, Forall (fun c => f c = true) (takeWhile f s).
Proof.
  intros f s. induction s as [|c s IH]; simpl; [constructor|].
  destruct (f c) eqn:E; constructor; assumption.
Qed.

Lemma dropWhile_head : forall f s c r, dropWhile f s = c :: r -> f c = false.
Proof.
  intros f s. induction s as [|d s IH]; simpl; intros c r H; [discriminate|].
  destruct (f d) eqn:E.
  - eapply IH; eauto.
  - injection H as <- _. exact E.
Qed.

Lemma span_stop : forall f a c r,
  Forall (fun x => f x = true) a -> f c = false ->
  takeWhile f (a ++ c :: r) = a /\ dropWhile f (a ++ c :: r) = c :: r.
Proof.
  intros f a c r Ha Hc. induction Ha as [|x a Hx _ [IH1 IH2]]; simpl.
  - rewrite Hc. split; reflexivity.
  - rewrite Hx, IH1, IH2. split; reflexivity.
Qed.

Lemma str_eqb_eq : forall a b, str_eqb a b = true <-> a = b.
Proof.
  induction a as [|x a IH]; intros [|y b]; simpl; split; intros H;
    try reflexivity; try discriminate.
  - apply andb_true_iff in H as [Hx Hab]. apply N.eqb_eq in Hx.
    apply IH in Hab. congruence.
  - injection H as -> ->. rewrite N.eqb_refl. apply IH. reflexivity.
Qed.

Lemma replace_unfold : forall s p r,
  replace s p r =
  if startsWith s p then r ++ skipn (length p) s
  else match s with [] => [] | c :: s' => c :: replace s' p r end.
Proof. intros [|c s] p r; reflexivity. Qed.

(** [replace] removes exactly the first occurrence. *)
Lemma replace_first_occurrence : forall a d p r b,
  first_occurrence d p a b -> replace d p r = a ++ r ++ b.
Proof.
  induction a as [|c a IH]; intros d p r b [Hd Hmin].
  - subst d. simpl app. rewrite replace_unfold, startsWith_app.
    rewrite skipn_app, skipn_all, Nat.sub_diag. reflexivity.
  - subst d. simpl app.
    assert (Hno : startsWith (c :: a ++ p ++ b) p = false).
    { destruct (startsWith (c :: a ++ p ++ b) p) eqn:E; [|reflexivity].
      destruct (startsWith_inv _ _ E) as [b' Hb'].
      specialize (Hmin [] b' Hb'). simpl in Hmin. lia. }
    rewrite replace_unfold, Hno. f_equal.
    apply IH. split; [reflexivity|].
    intros a' b' H'.
    specialize (Hmin (c :: a') b'). simpl in Hmin.
    rewrite H' in Hmin. specialize (Hmin eq_refl). lia.
Qed.

(** ** The title pattern *)

Lemma not_rparen_true : forall c, not_rparen c = true <-> c <> RPAREN.
Proof.
  intros c. unfold not_rparen. rewrite negb_true_iff, N.eqb_neq. tauto.
Qed.

Lemma match_tail_sound : forall s id, match_tail s = Some id -> tail_shape s id.
Proof.
  intros s id. unfold match_tail.
  pose proof (takeWhile_dropWhile is_space s) as Hs.
  pose proof (takeWhile_all is_space s) as Hws.
  destruct (takeWhile is_space s) as [|w ws]; [discriminate|].
  destruct (dropWhile is_space s) as [|c r]; [discriminate|].
  destruct (c =? LPAREN)%N eqn:Ec; [|discriminate].
  apply N.eqb_eq in Ec. subst c.
  pose proof (takeWhile_dropWhile not_rparen r) as Hr.
  pose proof (takeWhile_all not_rparen r) as Hid.
  pose proof (dropWhile_head not_rparen r) as Hhd.
  destruct (takeWhile not_rparen r) as [|i0 i1]; [discriminate|].
  destruct (dropWhile not_rparen r) as [|c' r']; [discriminate|].
  destruct (forallb is_space r') eqn:Etr; [|discriminate].
  intros H. injection H as <-.
  specialize (Hhd c' r' eq_refl).
  unfold not_rparen in Hhd. apply negb_false_iff, N.eqb_eq in Hhd. subst c'.
  exists (w :: ws), r'. repeat split.
  - rewrite <- Hs, <- Hr. reflexivity.
  - discriminate.
  - exact Hws.
  - discriminate.
  - eapply Forall_impl; [|exact Hid]. intros a. apply not_rparen_true.
  - apply Forall_forall. rewrite forallb_forall in Etr. exact Etr.
Qed.

Lemma match_tail_complete : forall s id, tail_shape s id -> match_tail s = Some id.
Proof.
  intros s id (ws & tr & -> & Hws & Fws & Hid & Fid & Ftr).
  unfold match_tail.
  destruct (span_stop is_space ws LPAREN (id ++ [RPAREN] ++ tr) Fws eq_refl)
    as [E1 E2].
  simpl app in *. rewrite E1, E2.
  destruct ws as [|w ws]; [congruence|].
  rewrite N.eqb_refl.
  assert (Fid' : Forall (fun c => not_rparen c = true) id).
  { eapply Forall_impl; [|exact Fid]. intros a. apply not_rparen_true. }
  destruct (span_stop not_rparen id RPAREN tr Fid' eq_refl) as [E3 E4].
  rewrite E3, E4.
  destruct id as [|i0 i1]; [congruence|].
  replace (forallb is_space tr) with true; [reflexivity|].
  symmetry. apply forallb_forall. apply Forall_forall. exact Ftr.
Qed.

Lemma title_shape_tail : forall line nm id,
  title_shape line nm id <->
  (exists rest, line = nm ++ rest /\ nm <> [] /\
                Forall (fun c => is_line_terminator c = false) nm /\
                tail_shape rest id).
Proof.
  intros line nm id. split.
  - intros (ws & tr & -> & Hnm & Fnm & Hws & Fws & Hid & Fid & Ftr).
    exists (ws ++ [LPAREN] ++ id ++ [RPAREN] ++ tr).
    repeat split; try assumption.
    exists ws, tr. repeat split; assumption.
  - intros (rest & -> & Hnm & Fnm & ws & tr & -> & Hws & Fws & Hid & Fid & Ftr).
    exists ws, tr. repeat split; assumption.
Qed.

Lemma match_name_sound : forall s pre nm id,
  match_name pre s = Some (nm, id) ->
  exists nm', nm = pre ++ nm' /\ title_shape s nm' id.
Proof.
  induction s as [|c s IH]; intros pre nm id H; simpl in H; [discriminate|].
  destruct (is_line_terminator c) eqn:Ec; [discriminate|].
  destruct (match_tail s) as [id0|] eqn:Et.
  - injection H as <- <-. exists [c]. split; [reflexivity|].
    apply title_shape_tail. exists s. repeat split.
    + discriminate.
    + constructor; [exact Ec | constructor].
    + apply match_tail_sound. exact Et.
  - destruct (IH _ _ _ H) as (nm' & -> & Hsh).
    exists (c :: nm'). split; [rewrite <- app_assoc; reflexivity|].
    apply title_shape_tail in Hsh as (rest & -> & Hnm & Fnm & Hts).
    apply title_shape_tail. exists rest. repeat split.
    + discriminate.
    + constructor; assumption.
    + exact Hts.
Qed.

Lemma match_name_complete : forall nm s pre id,
  title_shape s nm id ->
  exists nm' id', match_name pre s = Some (pre ++ nm', id')
                  /\ length nm' <= length nm.
Proof.
  induction nm as [|c nm IH]; intros s pre id Hsh;
    apply title_shape_tail in Hsh as (rest & -> & Hnm & Fnm & Hts);
    [congruence|].
  inversion Fnm as [|? ? Hc Fnm']; subst.
  simpl. rewrite Hc.
  destruct (match_tail (nm ++ rest)) as [id0|] eqn:Et.
  - exists [c], id0. split; [reflexivity | simpl; lia].
  - destruct nm as [|d nm].
    + simpl in Et. rewrite (match_tail_complete _ _ Hts) in Et. discriminate.
    + destruct (IH (((d :: nm)) ++ rest) (pre ++ [c]) id) as (nm' & id' & E & Hle).
      { apply title_shape_tail. exists rest. repeat split;
          [discriminate | assumption | assumption]. }
      exists (c :: nm'), id'. split.
      * rewrite E, <- app_assoc. reflexivity.
      * simpl in *. lia.
Qed.

Lemma app_same_length : forall (a a' b b' : str),
  a ++ b = a' ++ b' -> length a = length a' -> a = a' /\ b = b'.
Proof.
  induction a as [|x a IH]; intros [|y a'] b b' H Hl; simpl in *;
    try discriminate.
  - split; [reflexivity | assumption].
  - injection H as -> H. destruct (IH a' b b' H) as [-> ->]; [lia|].
    split; reflexivity.
Qed.

(** The executable matcher is the regular expression: it succeeds with
    [(nm, id)] exactly when the line has the title shape with name [nm] and
    identifier [id] and no shorter name fits (the first group is lazy). *)
Lemma partMatch_spec : forall line nm id,
  partMatch line = Some (nm, id) <->
  (title_shape line nm id /\
   forall nm' id', title_shape line nm' id' -> length nm <= length nm').
Proof.
  intros line nm id. unfold partMatch. split.
  - intros H. destruct (match_name_sound _ _ _ _ H) as (nm0 & E & Hsh).
    simpl in E. subst nm0. split; [exact Hsh|].
    intros nm' id' Hsh'.
    destruct (match_name_complete _ _ [] _ Hsh') as (nm1 & id1 & E1 & Hle).
    rewrite H in E1. injection E1 as -> _. exact Hle.
  - intros [Hsh Hmin].
    destruct (match_name_complete _ _ [] _ Hsh) as (nm1 & id1 & E1 & Hle).
    simpl in E1. rewrite E1.
    destruct (match_name_sound _ _ _ _ E1) as (nm2 & E2 & Hsh1).
    simpl in E2. subst nm2.
    specialize (Hmin _ _ Hsh1).
    apply title_shape_tail in Hsh as (rest & -> & _ & _ & Hts).
    apply title_shape_tail in Hsh1 as (rest1 & E & _ & _ & Hts1).
    destruct (app_same_length _ _ _ _ E) as [-> ->]; [lia|].
    apply match_tail_complete in Hts. apply match_tail_complete in Hts1.
    rewrite Hts in Hts1. injection Hts1 as <-. reflexivity.
Qed.

Lemma partMatch_some_iff : forall line,
  (exists g, partMatch line = Some g) <-> (exists nm id, title_shape line nm id).
Proof.
  intros line. split.
  - intros [[nm id] H]. exists nm, id. apply partMatch_spec in H. tauto.
  - intros (nm & id & Hsh). unfold partMatch.
    destruct (match_name_complete _ _ [] _ Hsh) as (nm1 & id1 & E1 & _).
    eauto.
Qed.

(** ** The scan *)

Lemma nth_error_next : forall (lines : list str) j,
  match nth_error lines j with
  | Some next => (j <? length lines)%nat = true /\ nth j lines [] = next
  | None => (j <? length lines)%nat = false
  end.
Proof.
  intros lines j. destruct (nth_error lines j) as [next|] eqn:E.
  - split.
    + apply Nat.ltb_lt. apply nth_error_Some. congruence.
    + apply nth_error_nth. exact E.
  - apply Nat.ltb_ge. apply nth_error_None. exact E.
Qed.

Lemma flush_heads : forall st,
  heads (flush st) =
  heads (parts st) ++ match currentPart st with
                      | Some p => [(name p, partNumber p)]
                      | None => []
                      end.
Proof.
  intros st. unfold flush, heads. destruct (currentPart st).
  - rewrite map_app. reflexivity.
  - rewrite app_nil_r. reflexivity.
Qed.

Lemma in_flush : forall st p,
  In p (flush st) <-> In p (parts st) \/ currentPart st = Some p.
Proof.
  intros st p. unfold flush. destruct (currentPart st) as [q|].
  - rewrite in_app_iff. simpl. split.
    + intros [H|[H|[]]]; [left; assumption | right; congruence].
    + intros [H|H]; [left; assumption | right; left; congruence].
  - split; [tauto|]. intros [H|H]; [assumption | discriminate].
Qed.

Section Scan.

Variable lines : list str.

(** The loop's title test and [title_pair] are the same test. *)
Lemma classify_title_pair : forall i nm pn,
  classify lines i = Title nm pn <-> title_pair lines i = Some (nm, pn).
Proof.
  intros i nm pn. unfold classify, title_pair.
  pose proof (nth_error_next lines (i + 1)) as Hn.
  destruct (trim (nth i lines [])) as [|c l] eqn:El.
  - simpl. split; discriminate.
  - simpl negb. cbv iota.
    destruct (partMatch (c :: l)) as [[g1 g2]|]; [|split; discriminate].
    destruct (nth_error lines (i + 1)) as [next|].
    + destruct Hn as [-> ->]. simpl andb.
      destruct (includes next (lit "$")); split; intros H;
        try discriminate; injection H as <- <-; reflexivity.
    + rewrite Hn. simpl. split; discriminate.
Qed.

Lemma classify_not_title : forall i,
  (forall nm pn, classify lines i <> Title nm pn) -> title_pair lines i = None.
Proof.
  intros i H. destruct (title_pair lines i) as [[nm pn]|] eqn:E;
    [|reflexivity].
  apply classify_title_pair in E. elim (H _ _ E).
Qed.

Lemma classify_other : forall i line,
  classify lines i = Other line ->
  line = trim (nth i lines []) /\ In (nth i lines []) lines.
Proof.
  intros i line H.
  assert (Hin : truthy (trim (nth i lines [])) = true -> In (nth i lines []) lines).
  { intros Ht. destruct (Nat.lt_ge_cases i (length lines)) as [Hlt|Hge].
    - apply nth_In. exact Hlt.
    - rewrite (nth_overflow _ _ Hge) in Ht. discriminate. }
  unfold classify in H.
  destruct (truthy (trim (nth i lines []))) eqn:Et; simpl in H; [|discriminate].
  split; [|apply Hin; reflexivity].
  destruct (partMatch (trim (nth i lines []))) as [[g1 g2]|].
  - destruct ((i + 1 <? length lines)%nat && includes (nth (i + 1) lines []) (lit "$"));
      [discriminate | congruence].
  - congruence.
Qed.

(** One iteration adds one part exactly when line [i] is a title. *)
Lemma loop_body_heads : forall st i,
  heads (flush (loop_body lines st i)) = heads (flush st) ++ title_of lines i.
Proof.
  intros st i. unfold loop_body, title_of.
  destruct (classify lines i) as [|nm pn|line] eqn:Ec.
  - rewrite classify_not_title by (rewrite Ec; discriminate).
    rewrite app_nil_r. reflexivity.
  - apply classify_title_pair in Ec. rewrite Ec.
    unfold flush at 1. simpl. unfold heads. rewrite map_app. reflexivity.
  - rewrite classify_not_title by (rewrite Ec; discriminate).
    rewrite app_nil_r.
    destruct (currentPart st) as [p|] eqn:Ep.
    + destruct (is_detail line); [|reflexivity].
      rewrite !flush_heads. simpl. rewrite Ep. reflexivity.
    + destruct (isIntro st); [|reflexivity].
      rewrite !flush_heads. simpl. rewrite Ep. reflexivity.
Qed.

(** An iteration opens a part, with no detail yet, exactly on a title. *)
Lemma loop_body_opens_iff : forall st i,
  (exists p, flush (loop_body lines st i) = flush st ++ [p]) <->
  (exists nm pn, classify lines i = Title nm pn).
Proof.
  intros st i. split.
  - intros [p Hp]. pose proof (loop_body_heads st i) as Hh.
    rewrite Hp in Hh. unfold heads in Hh. rewrite map_app in Hh.
    apply app_inv_head in Hh. unfold title_of in Hh.
    destruct (title_pair lines i) as [[nm pn]|] eqn:E; [|discriminate].
    exists nm, pn. apply classify_title_pair. exact E.
  - intros (nm & pn & Ec). unfold loop_body. rewrite Ec.
    eexists. reflexivity.
Qed.

Lemma fold_heads : forall idxs st,
  heads (flush (fold_left (loop_body lines) idxs st))
  = heads (flush st) ++ flat_map (title_of lines) idxs.
Proof.
  induction idxs as [|i idxs IH]; intros st; simpl.
  - rewrite app_nil_r. reflexivity.
  - rewrite IH, loop_body_heads, <- app_assoc. reflexivity.
Qed.

Lemma loop_body_details_ok : forall st i,
  details_ok lines st -> details_ok lines (loop_body lines st i).
Proof.
  intros st i Hok. unfold loop_body.
  destruct (classify lines i) as [|nm pn|line] eqn:Ec; [exact Hok| |].
  - intros p d Hp Hd. apply in_flush in Hp. simpl in Hp.
    destruct Hp as [Hp|Hp].
    + eapply Hok; eassumption.
    + injection Hp as <-. simpl in Hd. contradiction.
  - destruct (classify_other _ _ Ec) as [Hline Hin].
    destruct (currentPart st) as [q|] eqn:Eq.
    + destruct (is_detail line) eqn:Edet; [|exact Hok].
      intros p d Hp Hd. apply in_flush in Hp. simpl in Hp.
      destruct Hp as [Hp|Hp].
      * apply (Hok p d); [apply in_flush; left; exact Hp | exact Hd].
      * injection Hp as <-. simpl in Hd. apply in_app_iff in Hd.
        destruct Hd as [Hd|[<-|[]]].
        -- apply (Hok q d); [apply in_flush; right; exact Eq | exact Hd].
        -- split; [exact Edet|]. eauto.
    + destruct (isIntro st); [|exact Hok].
      intros p d Hp Hd. apply in_flush in Hp. simpl in Hp.
      destruct Hp as [Hp|Hp]; [|discriminate].
      apply (Hok p d); [apply in_flush; left; exact Hp | exact Hd].
Qed.

Lemma fold_details_ok : forall idxs st,
  details_ok lines st -> details_ok lines (fold_left (loop_body lines) idxs st).
Proof.
  induction idxs as [|i idxs IH]; intros st Hok; simpl.
  - exact Hok.
  - apply IH. apply loop_body_details_ok. exact Hok.
Qed.

End Scan.

Lemma parseParts_heads : forall content,
  heads (snd (parseParts content)) = title_pairs (split content LF).
Proof.
  intros content. unfold parseParts, scan_lines. simpl snd.
  rewrite fold_heads. reflexivity.
Qed.

Lemma parseParts_details : forall content p d,
  In p (snd (parseParts content)) -> In d (details p) ->
  is_detail d = true /\ exists l, In l (split content LF) /\ d = trim l.
Proof.
  intros content p d. unfold parseParts, scan_lines. simpl snd.
  apply fold_details_ok. intros q e Hq. simpl in Hq. contradiction.
Qed.

Lemma is_detail_spec : forall d,
  is_detail d = true <->
  (contains d (lit "$") \/ contains d (lit "Product Page:")
   \/ contains d (lit "Installation:") \/ contains d (lit "https://")).
Proof.
  intros d. unfold is_detail.
  rewrite !orb_true_iff, !includes_spec. tauto.
Qed.

Lemma find_absent : forall (f : str -> bool) ds,
  (forall d, In d ds -> f d = false) -> find f ds = None.
Proof.
  intros f ds. induction ds as [|x ds IH]; intros H; simpl; [reflexivity|].
  rewrite (H x (or_introl eq_refl)). apply IH.
  intros d Hd. apply H. right. exact Hd.
Qed.

Lemma find_first : forall (f : str -> bool) pre d post,
  (forall x, In x pre -> f x = false) -> f d = true ->
  find f (pre ++ d :: post) = Some d.
Proof.
  intros f pre d post Hpre Hd. induction pre as [|x pre IH]; simpl.
  - rewrite Hd. reflexivity.
  - rewrite (Hpre x (or_introl eq_refl)). apply IH.
    intros y Hy. apply Hpre. right. exact Hy.
Qed.

Lemma not_contains_includes : forall s p, ~ contains s p -> includes s p = false.
Proof.
  intros s p H. destruct (includes s p) eqn:E; [|reflexivity].
  apply includes_spec in E. contradiction.
Qed.

(** ** The parser claims *)

(** C2, as the specification words it, fails: in the text
    ["Door Bin (PS123)\n\n$45.00"] the first line has the title shape and the
    next line that is not blank carries a dollar sign, yet the loop looks
    at [lines[i + 1]], which is the empty line, so the line is no title and
    no part is produced. *)
Lemma title_after_blank_counterexample :
  let lines := split blankSeparated LF in
  spec_is_title lines 0 = true
  /\ classify lines 0 = Other (lit "Door Bin (PS123)")
  /\ snd (parseParts blankSeparated) = [].
Proof. vm_compute. repeat split; reflexivity. Qed.

(** C2 (amended): line [i] of a message is classified as a title line if
    and only if its trimmed form has the shape [<name> (<identifier>)]
    (anchored at both ends, trailing white space allowed) and the line
    right after it, [lines[i + 1]] taken raw, exists and contains a dollar
    sign.  Those are also exactly the lines at which the loop opens a new
    part. *)
Theorem title_line_iff : forall content i,
  let lines := split content LF in
  ((exists nm pn, classify lines i = Title nm pn) <-> well_formed_title lines i)
  /\ (forall st,
        (exists p, flush (loop_body lines st i) = flush st ++ [p])
        <-> well_formed_title lines i).
Proof.
  intros content i lines.
  assert (Hcls : (exists nm pn, classify lines i = Title nm pn)
                 <-> well_formed_title lines i).
  { unfold well_formed_title. split.
    - intros (nm & pn & H). apply classify_title_pair in H.
      unfold title_pair in H.
      destruct (partMatch (trim (nth i lines []))) as [[g1 g2]|] eqn:Em;
        [|discriminate].
      destruct (nth_error lines (i + 1)) as [next|]; [|discriminate].
      destruct (includes next (lit "$")) eqn:Ei; [|discriminate].
      split.
      + apply partMatch_some_iff. eauto.
      + exists next. split; [reflexivity|]. apply includes_spec. exact Ei.
    - intros [Hshape (next & Hn & Hc)].
      apply partMatch_some_iff in Hshape as [[g1 g2] Hm].
      exists (trim g1), (trim g2). apply classify_title_pair.
      unfold title_pair. rewrite Hm, Hn.
      apply includes_spec in Hc. rewrite Hc. reflexivity. }
  split; [exact Hcls|].
  intros st. rewrite loop_body_opens_iff. exact Hcls.
Qed.

Lemma title_line_iff_witness : well_formed_title (split doorBin LF) 0.
Proof.
  apply (proj1 (proj1 (title_line_iff doorBin 0))).
  exists (lit "Door Bin"), (lit "PS123"). reflexivity.
Defined.

(** C4: when the text holds exactly [K] well-formed title + dollar-line
    pairs, the parser returns exactly [K] parts, in the order of the title
    lines, and each part carries the trimmed captures of its title line. *)
Theorem parser_exactness : forall content K,
  length (title_pairs (split content LF)) = K ->
  length (snd (parseParts content)) = K /\
  map (fun p => (name p, partNumber p)) (snd (parseParts content))
  = title_pairs (split content LF).
Proof.
  intros content K HK.
  pose proof (parseParts_heads content) as Hh. unfold heads in Hh.
  split; [|exact Hh].
  rewrite <- HK, <- Hh, length_map. reflexivity.
Qed.

Lemma parser_exactness_witness :
  length (snd (parseParts twoParts)) = 2 /\
  map (fun p => (name p, partNumber p)) (snd (parseParts twoParts))
  = [(lit "Door Bin", lit "PS123"); (lit "Ice Maker", lit "PS9 88")].
Proof. exact (parser_exactness twoParts 2 eq_refl). Defined.

(** C5: the end-to-end example parses to one part, Door Bin / PS123, with
    price $45.00, brand Whirlpool, availability In Stock, product URL
    https://x, no video URL and has-video false. *)
Theorem door_bin_example :
  map (fun p => (name p, partNumber p, PartCard p)) (snd (parseParts doorBin))
  = [(lit "Door Bin", lit "PS123",
      {| price := Some (lit "$45.00");
         brand := Some (lit "Whirlpool");
         availability := Some (lit "In Stock");
         productUrl := Some (lit "https://x");
         videoUrl := None;
         hasVideo := false |})].
Proof. vm_compute. reflexivity. Qed.

(** C6, as the specification words it, fails: a detail line that has
    [Product Page:] in its interior is selected ([find] tests [includes],
    not [startsWith]) and [replace] cuts the marker out of the middle, so
    the text before it stays in the URL.  The specification's reading
    would give no URL here. *)
Lemma product_url_interior_counterexample :
  map (fun p => (details p, productUrl (PartCard p)))
      (snd (parseParts interiorMention))
  = [([lit "$45.00"; lit "See Product Page: https://x"],
      Some (lit "See  https://x"))]
  /\ map (fun p => spec_productUrl (details p)) (snd (parseParts interiorMention))
     = [None].
Proof. vm_compute. split; reflexivity. Qed.

(** C6 (amended): the product URL of a part is taken from the first detail
    line that contains [Product Page:]; the first occurrence of that marker
    is removed and the result is trimmed.  When that line begins with the
    marker this is the remainder of the line, trimmed.  When no detail line
    contains the marker there is no product URL. *)
Theorem product_url_first_containing : forall p : Part,
  ((forall d, In d (details p) -> ~ contains d (lit "Product Page:")) ->
   productUrl (PartCard p) = None)
  /\ (forall pre d post a b,
        details p = pre ++ d :: post ->
        (forall x, In x pre -> ~ contains x (lit "Product Page:")) ->
        first_occurrence d (lit "Product Page:") a b ->
        productUrl (PartCard p) = Some (trim (a ++ b)))
  /\ (forall pre rest post,
        details p = pre ++ (lit "Product Page:" ++ rest) :: post ->
        (forall x, In x pre -> ~ contains x (lit "Product Page:")) ->
        productUrl (PartCard p) = Some (trim rest)).
Proof.
  intros p.
  assert (Hgen : forall pre d post a b,
        details p = pre ++ d :: post ->
        (forall x, In x pre -> ~ contains x (lit "Product Page:")) ->
        first_occurrence d (lit "Product Page:") a b ->
        productUrl (PartCard p) = Some (trim (a ++ b))).
  { intros pre d post a b Hds Hpre Hocc. simpl. unfold productUrlOf.
    rewrite Hds, find_first with (d := d).
    - simpl. rewrite (replace_first_occurrence _ _ _ _ _ Hocc). reflexivity.
    - intros x Hx. apply not_contains_includes. apply Hpre. exact Hx.
    - apply includes_spec. destruct Hocc as [-> _]. exists a, b. reflexivity. }
  split; [|split].
  - intros Hno. simpl. unfold productUrlOf. rewrite find_absent; [reflexivity|].
    intros d Hd. apply not_contains_includes. apply Hno. exact Hd.
  - exact Hgen.
  - intros pre rest post Hds Hpre.
    apply (Hgen pre _ post [] rest Hds Hpre).
    split; [reflexivity|]. intros a' b' _. simpl. lia.
Qed.

Lemma product_url_first_containing_witness :
  productUrl (PartCard doorBinPart) = Some (trim (lit " https://x")).
Proof.
  refine (proj2 (proj2 (product_url_first_containing doorBinPart))
            [lit "$45.00 | Whirlpool | In Stock"] (lit " https://x") []
            eq_refl _).
  intros x [<-|[]] Hc. apply includes_spec in Hc. vm_compute in Hc.
  discriminate.
Defined.

(** C7: a message whose text has no dollar sign, no [Product Page:] and no
    [partselect.com] is shown verbatim as plain text; [PartList] is not
    used for it, whatever its lines look like. *)
Theorem gate_plain_text : forall m : ChatMessage,
  includes (content m) (lit "$") = false ->
  includes (content m) (lit "Product Page:") = false ->
  includes (content m) (lit "partselect.com") = false ->
  MessageBubble m = PlainText (content m).
Proof.
  intros m H1 H2 H3. unfold MessageBubble, hasPartInfo.
  rewrite H1, H2, H3, andb_false_r. reflexivity.
Qed.

Lemma gate_plain_text_witness :
  (exists g, partMatch (nth 0 (split (content titleWithoutPrice) LF) []) = Some g)
  /\ MessageBubble titleWithoutPrice = PlainText (content titleWithoutPrice).
Proof.
  split.
  - eexists. reflexivity.
  - apply (gate_plain_text titleWithoutPrice); reflexivity.
Defined.

(** C9: every detail line kept in a parsed part contains a dollar sign,
    [Product Page:], [Installation:] or [https://].  The line
    [Installation Video: [Not Available]] has none of them, so it is never
    a detail line; and when the only lines of a message that mention
    [Installation Video:] are of that form, every part has no video URL and
    has-video false, the [find] having found no line at all. *)
Theorem detail_lines_are_marked :
  (forall content p d,
      In p (snd (parseParts content)) -> In d (details p) ->
      contains d (lit "$") \/ contains d (lit "Product Page:")
      \/ contains d (lit "Installation:") \/ contains d (lit "https://"))
  /\ (forall content p,
        In p (snd (parseParts content)) -> ~ In notAvailableLine (details p))
  /\ (forall content,
        (forall l, In l (split content LF) ->
                   includes (trim l) (lit "Installation Video:") = true ->
                   trim l = notAvailableLine) ->
        forall p, In p (snd (parseParts content)) ->
          find (fun d => includes d (lit "Installation Video:")) (details p) = None
          /\ videoUrl (PartCard p) = None
          /\ hasVideo (PartCard p) = false).
Proof.
  split; [|split].
  - intros content p d Hp Hd. apply is_detail_spec.
    apply (parseParts_details content p d Hp Hd).
  - intros content p Hp Hin.
    destruct (parseParts_details content p _ Hp Hin) as [Hdet _].
    vm_compute in Hdet. discriminate.
  - intros content Hna p Hp.
    assert (Hfind : find (fun d => includes d (lit "Installation Video:"))
                         (details p) = None).
    { apply find_absent. intros d Hd.
      destruct (includes d (lit "Installation Video:")) eqn:E; [|reflexivity].
      destruct (parseParts_details content p d Hp Hd) as [Hdet (l & Hl & ->)].
      rewrite (Hna l Hl E) in Hdet. vm_compute in Hdet. discriminate. }
    split; [exact Hfind|].
    simpl. unfold hasVideoOf, videoUrlOf. rewrite Hfind. split; reflexivity.
Qed.

Lemma detail_lines_are_marked_witness :
  find (fun d => includes d (lit "Installation Video:")) (details doorBinPart) = None
  /\ videoUrl (PartCard doorBinPart) = None
  /\ hasVideo (PartCard doorBinPart) = false.
Proof.
  apply (proj2 (proj2 detail_lines_are_marked) doorBin).
  - intros l Hl Hinc. vm_compute in Hl.
    destruct Hl as [<-|[<-|[<-|[<-|[]]]]];
      try (vm_compute in Hinc; discriminate).
    reflexivity.
  - vm_compute. left. reflexivity.
Defined.

(** ** The pending calls *)

Lemma nth_error_last : forall (ts : list Task) t,
  nth_error (ts ++ [t]) (length ts) = Some t.
Proof.
  intros ts t. rewrite nth_error_app2 by lia. rewrite Nat.sub_diag. reflexivity.
Qed.

Lemma remove_nth_split : forall (l1 l2 : list Task) t,
  remove_nth (length l1) (l1 ++ t :: l2) = l1 ++ l2.
Proof.
  intros l1 l2 t. unfold remove_nth.
  rewrite firstn_app, firstn_all, Nat.sub_diag. simpl firstn.
  rewrite app_nil_r.
  change (l1 ++ t :: l2) with (l1 ++ [t] ++ l2).
  rewrite app_assoc, skipn_app.
  rewrite skipn_all2 by (rewrite length_app; simpl; lia).
  rewrite length_app. simpl length.
  replace (S (length l1) - (length l1 + 1)) with 0 by lia.
  reflexivity.
Qed.

Lemma remove_nth_last : forall (ts : list Task) t,
  remove_nth (length ts) (ts ++ [t]) = ts.
Proof.
  intros ts t. rewrite remove_nth_split. apply app_nil_r.
Qed.

Lemma filter_remove_nth : forall (ts : list Task) i t,
  nth_error ts i = Some t ->
  length (filter is_chat ts)
  = length (filter is_chat (remove_nth i ts)) + (if is_chat t then 1 else 0).
Proof.
  intros ts i t H.
  destruct (nth_error_split _ _ H) as (l1 & l2 & -> & <-).
  rewrite remove_nth_split, !filter_app, !length_app. simpl.
  destruct (is_chat t); simpl; lia.
Qed.

Lemma differs_true : forall sid held,
  differs sid held = true <-> Some sid <> held.
Proof.
  intros sid [h|]; simpl.
  - rewrite negb_true_iff. split.
    + intros E Heq. injection Heq as ->.
      assert (str_eqb h h = true) by (apply str_eqb_eq; reflexivity).
      congruence.
    + intros Hne. destruct (str_eqb sid h) eqn:E; [|reflexivity].
      apply str_eqb_eq in E. congruence.
  - split; [discriminate | reflexivity].
Qed.

Lemma differs_false : forall sid held,
  differs sid held = false <-> Some sid = held.
Proof.
  intros sid held. destruct (differs sid held) eqn:D.
  - split; [discriminate|]. intros E. apply differs_true in D. contradiction.
  - split; [|reflexivity]. intros _.
    destruct held as [h|]; simpl in D; [|discriminate].
    apply negb_false_iff, str_eqb_eq in D. congruence.
Qed.

Lemma handleSend_cases : forall now s,
  (handleSend now s = (s, None)
   /\ (truthy (trim (input s)) = false \/ loading s = true))
  \/ (exists s' c held,
        handleSend now s = (s', Some (c, SendAwaitChat held))
        /\ loading s = false /\ loading s' = true).
Proof.
  intros now s. unfold handleSend.
  destruct (truthy (trim (input s))) eqn:Et; simpl.
  - destruct (loading s) eqn:El.
    + left. split; [reflexivity | right; reflexivity].
    + right. do 3 eexists. split; [reflexivity|]. split; reflexivity.
  - left. split; [reflexivity | left; reflexivity].
Qed.

Lemma step_one_chat : forall e sys sys',
  one_chat sys -> step e sys = Some sys' -> one_chat sys'.
Proof.
  intros e sys sys' [Hle Hidle] Hstep. unfold one_chat, outstanding in *.
  destruct e as [now|text| |i o now]; simpl in Hstep.
  - destruct (handleSend_cases now (ui sys))
      as [[E _]|(s' & c & held & E & Hl & Hl')]; rewrite E in Hstep;
      injection Hstep as <-; simpl.
    + split; assumption.
    + rewrite filter_app, length_app. simpl. rewrite (Hidle Hl).
      split; [lia | congruence].
  - injection Hstep as <-. simpl. split; assumption.
  - destruct (resetChat (ui sys)) as [c t] eqn:Er.
    injection Hstep as <-. simpl.
    assert (Ht : is_chat t = false).
    { unfold resetChat in Er. destruct (orUndefined (sessionId (ui sys)));
        injection Er as _ <-; reflexivity. }
    rewrite filter_app, length_app. simpl. rewrite Ht. simpl.
    rewrite Nat.add_0_r. split; assumption.
  - unfold settle in Hstep.
    destruct (nth_error (inflight sys) i) as [t|] eqn:En; [|discriminate].
    pose proof (filter_remove_nth _ _ _ En) as Hcount.
    destruct t, o; try discriminate; injection Hstep as <-; simpl in *;
      try rewrite filter_app, length_app; simpl;
      (split; [lia | intros Hl; try specialize (Hidle Hl); lia]).
Qed.

Lemma run_one_chat : forall es sys sys',
  one_chat sys -> run es sys = Some sys' -> one_chat sys'.
Proof.
  induction es as [|e es IH]; intros sys sys' Hinv Hrun; simpl in Hrun.
  - injection Hrun as <-. exact Hinv.
  - destruct (step e sys) as [sys1|] eqn:Es; [|discriminate].
    eapply IH; [|exact Hrun]. eapply step_one_chat; eassumption.
Qed.

Lemma one_chat_system0 : one_chat system0.
Proof. split; [vm_compute; lia | reflexivity]. Qed.

(** ** The session and message-log claims *)

(** Resume the handler that [H] finds suspended. *)
Ltac resume H := simpl; unfold settle; rewrite H; reflexivity.

(** C1, as the specification words it, fails: when the delete call
    rejects, [resetChat] is over (nothing of it is pending any more), no
    create call has followed the delete call, the session id is the old
    one and the log still holds the three messages of the conversation. *)
Lemma reset_delete_rejected_counterexample :
  exists sys,
    run (oneExchange ++ [ClickReset; Settle 0 (Rejected None) 3]) system0 = Some sys
    /\ inflight sys = []
    /\ calls sys = [ApiCreateSession;
                    ApiChat {| message := lit "hi";
                               req_session_id := Some (lit "A");
                               enable_validation := Some true;
                               validation_threshold := Some 70%Z |};
                    ApiDeleteSession (lit "A")]
    /\ sessionId (ui sys) = Some (lit "A")
    /\ messages (ui sys)
       = [welcomeMessage 0; userMessage (lit "hi") 1; assistantMessage reply].
Proof. eexists. vm_compute. repeat split; reflexivity. Qed.

(** C1 (amended): when [resetChat] is invoked while a session id is held,
    a delete-session call is issued first.  If it resolves, a
    create-session call is issued next, and if that resolves too the
    session id is replaced, the log is exactly one fresh reset message and
    the banner is cleared.  If the delete call rejects, no create-session
    call is issued and session id, log and banner stay as they were; the
    failure is only logged.  The same holds when the create call
    rejects. *)
Theorem reset_sequence : forall sys sid,
  sessionId (ui sys) = Some sid -> truthy sid = true ->
  (forall new now t,
      run [ClickReset; Settle (length (inflight sys)) DeleteResolved t;
           Settle (length (inflight sys)) (CreateResolved new) now] sys
      = Some {| ui := {| messages := [resetMessage now];
                         input := input (ui sys);
                         loading := loading (ui sys);
                         sessionId := Some new;
                         error := None |};
                inflight := inflight sys;
                calls := calls sys ++ [ApiDeleteSession sid; ApiCreateSession];
                console := console sys |})
  /\ (forall m t,
        run [ClickReset; Settle (length (inflight sys)) (Rejected m) t] sys
        = Some {| ui := ui sys;
                  inflight := inflight sys;
                  calls := calls sys ++ [ApiDeleteSession sid];
                  console := console sys ++ [lit "Failed to reset chat:"] |})
  /\ (forall m t t',
        run [ClickReset; Settle (length (inflight sys)) DeleteResolved t;
             Settle (length (inflight sys)) (Rejected m) t'] sys
        = Some {| ui := ui sys;
                  inflight := inflight sys;
                  calls := calls sys ++ [ApiDeleteSession sid; ApiCreateSession];
                  console := console sys ++ [lit "Failed to reset chat:"] |}).
Proof.
  intros sys sid Hsid Ht.
  assert (Hr : resetChat (ui sys) = (ApiDeleteSession sid, ResetAwaitDelete)).
  { unfold resetChat, orUndefined. rewrite Hsid, Ht. reflexivity. }
  split; [|split]; intros;
    cbn [run]; unfold step at 1; rewrite Hr; cbn [step];
    unfold settle at 1; cbn [inflight];
    rewrite nth_error_last, remove_nth_last; cbn [ui calls console];
    try (unfold settle at 1; cbn [inflight];
         rewrite nth_error_last, remove_nth_last; cbn [ui calls console]);
    rewrite <- ?app_assoc; reflexivity.
Qed.

Lemma reset_sequence_witness :
  run [ClickReset; Settle 0 DeleteResolved 5; Settle 0 (CreateResolved (lit "B")) 7]
      activeSys
  = Some {| ui := {| messages := [resetMessage 7]; input := lit "hi";
                     loading := false; sessionId := Some (lit "B");
                     error := None |};
            inflight := [];
            calls := [ApiCreateSession; ApiDeleteSession (lit "A"); ApiCreateSession];
            console := [] |}.
Proof.
  exact (proj1 (reset_sequence activeSys (lit "A") eq_refl eq_refl) (lit "B") 7%Z 5%Z).
Defined.

(** C3: while the loading flag is set, a send is a no-op: no message is
    appended, no call is issued, nothing is suspended and no state cell
    changes; and in every state the component can reach after mount at
    most one chat call is outstanding. *)
Theorem send_while_pending :
  (forall sys now,
      loading (ui sys) = true ->
      handleSend now (ui sys) = (ui sys, None)
      /\ step (ClickSend now) sys = Some sys)
  /\ (forall es sys, run es system0 = Some sys -> outstanding sys <= 1).
Proof.
  split.
  - intros sys now Hl.
    assert (E : handleSend now (ui sys) = (ui sys, None)).
    { unfold handleSend. rewrite Hl, orb_true_r. reflexivity. }
    split; [exact E|]. simpl. rewrite E. destruct sys; reflexivity.
  - intros es sys Hrun.
    apply (run_one_chat es system0 sys one_chat_system0 Hrun).
Qed.

Lemma send_while_pending_witness :
  (handleSend 9 (ui pendingSys) = (ui pendingSys, None)
   /\ step (ClickSend 9) pendingSys = Some pendingSys)
  /\ outstanding pendingSys <= 1.
Proof.
  split.
  - exact (proj1 send_while_pending pendingSys 9%Z eq_refl).
  - exact (proj2 send_while_pending
             [Settle 0 (CreateResolved (lit "A")) 0; TypeInput (lit "hi");
              ClickSend 1; TypeInput (lit "again")]
             pendingSys eq_refl).
Defined.

(** What the code does outside the gateway's rejections: on a [null] or
    [undefined] reason the [catch] block throws before it appends or sets
    anything, and only the loading flag is cleared. *)
Lemma nullish_reason_skips_recovery : forall sys i held now,
  nth_error (inflight sys) i = Some (SendAwaitChat held) ->
  exists sys',
    step (Settle i RejectedNullish now) sys = Some sys'
    /\ messages (ui sys') = messages (ui sys)
    /\ error (ui sys') = error (ui sys)
    /\ loading (ui sys') = false.
Proof.
  intros sys i held now Hn. eexists. split; [resume Hn|]. repeat split.
Qed.

(** C8: when the chat call of a send rejects, the gateway rejecting with
    an error object as the specification has it, exactly one assistant
    message, the fixed apology, is appended at the end of the log, every
    earlier message staying in place; the banner is set to the server's
    message or to the default text; and the loading flag is cleared.  A
    send that runs from click to rejection therefore turns the log [l]
    into [l] followed by the user's message and the apology. *)
Theorem send_failure :
  (forall sys i held o now,
      nth_error (inflight sys) i = Some (SendAwaitChat held) ->
      is_rejection o = true -> gateway_outcome o = true ->
      exists sys',
        step (Settle i o now) sys = Some sys'
        /\ messages (ui sys') = messages (ui sys) ++ [errorMessage now]
        /\ role (errorMessage now) = assistant
        /\ error (ui sys') = Some (sendFailedBanner (server_message_of o))
        /\ truthy (sendFailedBanner (server_message_of o)) = true
        /\ loading (ui sys') = false
        /\ outstanding sys' + 1 = outstanding sys)
  /\ (forall sys o t0 now,
        is_rejection o = true -> gateway_outcome o = true ->
        truthy (trim (input (ui sys))) = true -> loading (ui sys) = false ->
        exists sys',
          run [ClickSend t0; Settle (length (inflight sys)) o now] sys
          = Some sys'
          /\ messages (ui sys')
             = messages (ui sys)
               ++ [userMessage (input (ui sys)) t0; errorMessage now]
          /\ error (ui sys') = Some (sendFailedBanner (server_message_of o))
          /\ loading (ui sys') = false).
Proof.
  split.
  - intros sys i held o now Hn Hrej Hgw.
    destruct o as [sid|r| |m|]; try discriminate.
    eexists. split; [resume Hn|].
    cbn [ui messages error loading handleSend_rejected server_message_of].
    repeat split.
    + destruct m as [[|c s]|]; reflexivity.
    + unfold outstanding. cbn [inflight].
      rewrite (filter_remove_nth _ _ _ Hn). reflexivity.
  - intros sys o t0 now Hrej Hgw Ht Hl.
    destruct o as [sid|r| |m|]; try discriminate.
    eexists. split.
    + cbn [run]. unfold step at 1, handleSend. rewrite Ht, Hl.
      cbn [negb orb step]. unfold settle. cbn [inflight].
      rewrite nth_error_last, remove_nth_last. reflexivity.
    + cbn [ui messages error loading handleSend_rejected server_message_of].
      rewrite <- app_assoc. repeat split.
Qed.

Lemma send_failure_witness :
  (exists sys',
     step (Settle 0 (Rejected (Some (lit "Session expired"))) 8) pendingSys = Some sys'
     /\ messages (ui sys')
        = [welcomeMessage 0; userMessage (lit "hi") 1; errorMessage 8]
     /\ error (ui sys') = Some (lit "Session expired")
     /\ loading (ui sys') = false)
  /\ (exists sys',
       run [ClickSend 1; Settle 0 (Rejected None) 8] activeSys = Some sys'
       /\ messages (ui sys')
          = [welcomeMessage 0; userMessage (lit "hi") 1; errorMessage 8]
       /\ error (ui sys') = Some (lit "Failed to send message. Please try again.")
       /\ loading (ui sys') = false).
Proof.
  split.
  - destruct (proj1 send_failure pendingSys 0 (Some (lit "A"))
                (Rejected (Some (lit "Session expired"))) 8%Z
                eq_refl eq_refl eq_refl)
      as (sys' & Hs & Hm & _ & He & _ & Hl & _).
    exists sys'. repeat split; assumption.
  - exact (proj2 send_failure activeSys (Rejected None) 1%Z 8%Z
             eq_refl eq_refl eq_refl eq_refl).
Defined.

(** C10, as stated, fails: the continuation of [handleSend] compares the
    response with the session id of its own closure.  When a reset has
    replaced the stored id while the call was in flight and the response
    repeats the id that was sent, nothing is stored, and the stored id is
    the one of the reset, not the one of the response. *)
Lemma stale_session_counterexample :
  exists sys,
    run resetDuringSend system0 = Some sys
    /\ sessionId (ui sys) = Some (lit "B")
    /\ sessionId (ui sys) <> Some (session_id reply).
Proof.
  eexists. split; [vm_compute; reflexivity|].
  split; [reflexivity | discriminate].
Qed.

(** C10 (amended): after a successful chat call, if the response's
    session id differs from the id held when the send started (the id
    sent with the request), the stored session id becomes the response's;
    if it is the same, the stored id is left as it is.  So the stored id
    equals the response's whenever the stored id was not replaced while
    the call was in flight. *)
Theorem session_id_after_chat : forall sys i held r now,
  nth_error (inflight sys) i = Some (SendAwaitChat held) ->
  exists sys',
    step (Settle i (ChatResolved r) now) sys = Some sys'
    /\ (Some (session_id r) <> held ->
        sessionId (ui sys') = Some (session_id r))
    /\ (Some (session_id r) = held ->
        sessionId (ui sys') = sessionId (ui sys))
    /\ (sessionId (ui sys) = held ->
        sessionId (ui sys') = Some (session_id r)).
Proof.
  intros sys i held r now Hn.
  eexists. split; [resume Hn|].
  cbn [ui sessionId handleSend_resolved].
  destruct (differs (session_id r) held) eqn:D.
  - apply differs_true in D. repeat split; try reflexivity.
    intros E. contradiction.
  - apply differs_false in D. repeat split; try reflexivity.
    + intros E. contradiction.
    + intros E. congruence.
Qed.

Lemma session_id_after_chat_witness :
  exists sys',
    step (Settle 0 (ChatResolved
                      {| response := lit "ok"; session_id := lit "fresh";
                         validation_score := None; resp_timestamp := lit "" |}) 8)
         pendingSys = Some sys'
    /\ sessionId (ui sys') = Some (lit "fresh").
Proof.
  destruct (session_id_after_chat pendingSys 0 (Some (lit "A"))
              {| response := lit "ok"; session_id := lit "fresh";
                 validation_score := None; resp_timestamp := lit "" |}
              8%Z eq_refl)
    as (sys' & Hs & _ & _ & Hsame).
  exists sys'. split; [exact Hs | exact (Hsame eq_refl)].
Defined.


(** * Further properties of the code *)

(** ** The parser as a whole *)

Section ScanSpec.

Variable lines : list str.

Lemma classify_blank : forall i,
  classify lines i = Blank -> trimmed lines i = [] /\ is_title lines i = false.
Proof.
  intros i H. unfold is_title.
  rewrite classify_not_title by (rewrite H; discriminate).
  split; [|reflexivity].
  unfold classify in H. fold (trimmed lines i) in H.
  destruct (trimmed lines i) as [|c l]; [reflexivity|].
  simpl in H. destruct (partMatch (c :: l)) as [[g1 g2]|];
    [destruct (_ && _)|]; discriminate.
Qed.

Lemma classify_other_line : forall i line,
  classify lines i = Other line ->
  trimmed lines i = line /\ truthy line = true /\ is_title lines i = false.
Proof.
  intros i line H. unfold is_title.
  rewrite classify_not_title by (rewrite H; discriminate).
  destruct (classify_other _ _ _ H) as [-> _].
  split; [reflexivity|]. split; [|reflexivity].
  unfold classify in H.
  destruct (truthy (trim (nth i lines []))); [reflexivity | discriminate].
Qed.

Lemma classify_title : forall i nm pn,
  classify lines i = Title nm pn ->
  title_pair lines i = Some (nm, pn) /\ is_title lines i = true.
Proof.
  intros i nm pn H. apply classify_title_pair in H.
  unfold is_title. rewrite H. split; reflexivity.
Qed.

Lemma flush_with_nil : forall st, flush_with st [] = flush st.
Proof.
  intros st. unfold flush_with, flush.
  destruct (currentPart st) as [[nm pn ds]|]; [|reflexivity].
  simpl. rewrite app_nil_r. reflexivity.
Qed.

(** The loop against the part-by-part description, from any state. *)
Lemma fold_flush : forall idxs st,
  flush (fold_left (loop_body lines) idxs st)
  = flush_with st (details_among lines idxs) ++ parts_among lines idxs.
Proof.
  induction idxs as [|i idxs IH]; intros st.
  - simpl. rewrite flush_with_nil, app_nil_r. reflexivity.
  - simpl fold_left. rewrite IH. unfold loop_body.
    unfold details_among at 2. simpl until_title. simpl parts_among.
    destruct (classify lines i) as [|nm pn|line] eqn:Ec.
    + destruct (classify_blank _ Ec) as [Ht Hn].
      unfold is_title in *. destruct (title_pair lines i); [discriminate|].
      simpl. rewrite Ht. reflexivity.
    + destruct (classify_title _ _ _ Ec) as [Hp Ht].
      unfold is_title. rewrite Hp. simpl.
      rewrite flush_with_nil. unfold flush_with at 1. simpl.
      rewrite <- app_assoc. reflexivity.
    + destruct (classify_other_line _ _ Ec) as (Hl & Htr & Ht).
      unfold is_title in *. destruct (title_pair lines i); [discriminate|].
      simpl. rewrite Hl.
      destruct (currentPart st) as [p|] eqn:Ep.
      * destruct (is_detail line) eqn:Ed.
        -- unfold flush_with. simpl. rewrite Ep.
           rewrite <- (app_assoc (details p)). reflexivity.
        -- reflexivity.
      * unfold flush_with. destruct (isIntro st); simpl; rewrite Ep; reflexivity.
Qed.

Lemma parts_among_seq : forall m a,
  parts_among lines (seq a m)
  = flat_map (fun t =>
      match title_pair lines t with
      | Some (nm, pn) =>
          [{| name := nm; partNumber := pn;
              details := details_among lines (seq (S t) (a + m - S t)) |}]
      | None => []
      end) (seq a m).
Proof.
  induction m as [|m IH]; intros a; simpl; [reflexivity|].
  rewrite IH. f_equal.
  - replace (a + S m - S a) with m by lia. reflexivity.
  - apply flat_map_ext. intros t.
    replace (S a + m - S t) with (a + S m - S t) by lia. reflexivity.
Qed.

End ScanSpec.

(** X1: the parts returned for a message are, in order, one part per title
    line; each part carries the trimmed captures of its title line and owns
    exactly the marked lines (trimmed) that lie between its title line and
    the next title line or the end of the message. *)
Theorem parts_line_by_line : forall content,
  snd (parseParts content) = spec_parts (split content LF).
Proof.
  intros content. unfold parseParts, scan_lines, spec_parts. simpl snd.
  rewrite fold_flush, parts_among_seq. reflexivity.
Qed.

Section IntroSpec.

Variable lines : list str.

Lemma loop_body_frozen : forall st i,
  collecting st = false ->
  collecting (loop_body lines st i) = false
  /\ introText (loop_body lines st i) = introText st.
Proof.
  intros st i Hc. unfold loop_body, collecting in *.
  destruct (classify lines i) as [|nm pn|line]; simpl.
  - split; [exact Hc | reflexivity].
  - split; reflexivity.
  - destruct (currentPart st) as [p|] eqn:Ep.
    + destruct (is_detail line); simpl; rewrite ?Ep; split; reflexivity.
    + rewrite Hc. rewrite Ep. split; [exact Hc | reflexivity].
Qed.

Lemma fold_frozen : forall idxs st,
  collecting st = false ->
  introText (fold_left (loop_body lines) idxs st) = introText st.
Proof.
  induction idxs as [|i idxs IH]; intros st Hc; simpl; [reflexivity|].
  destruct (loop_body_frozen st i Hc) as [Hc' Hi].
  rewrite (IH _ Hc'). exact Hi.
Qed.

Lemma fold_intro : forall idxs st,
  collecting st = true ->
  introText (fold_left (loop_body lines) idxs st)
  = introText st ++ flat_map (intro_line lines) (until_title lines idxs).
Proof.
  induction idxs as [|i idxs IH]; intros st Hc; simpl.
  - rewrite app_nil_r. reflexivity.
  - unfold loop_body.
    destruct (classify lines i) as [|nm pn|line] eqn:Ec.
    + destruct (classify_blank _ _ Ec) as [Ht ->]. simpl.
      unfold intro_line at 1. rewrite Ht. simpl. apply IH. exact Hc.
    + destruct (classify_title _ _ _ _ Ec) as [_ ->]. simpl.
      rewrite fold_frozen by reflexivity. simpl. rewrite app_nil_r.
      reflexivity.
    + destruct (classify_other_line _ _ _ Ec) as (Hl & Htr & ->). simpl.
      unfold intro_line at 1. rewrite Hl, Htr.
      unfold collecting in Hc.
      destruct (currentPart st) as [p|] eqn:Ep; [discriminate|].
      rewrite Hc. rewrite IH.
      * simpl. rewrite <- !app_assoc. reflexivity.
      * reflexivity.
Qed.

Lemma until_title_all : forall idxs,
  (forall i, In i idxs -> title_pair lines i = None) ->
  until_title lines idxs = idxs.
Proof.
  induction idxs as [|i idxs IH]; intros H; simpl; [reflexivity|].
  unfold is_title. rewrite (H i (or_introl eq_refl)).
  f_equal. apply IH. intros j Hj. apply H. right. exact Hj.
Qed.

Lemma title_pairs_nil : title_pairs lines = [] ->
  forall i, In i (seq 0 (length lines)) -> title_pair lines i = None.
Proof.
  unfold title_pairs. intros H i Hi.
  destruct (title_pair lines i) as [t|] eqn:E; [|reflexivity].
  assert (Hin : In t (flat_map (fun i => match title_pair lines i with
                                        | Some t => [t]
                                        | None => []
                                        end) (seq 0 (length lines)))).
  { apply in_flat_map. exists i. split; [exact Hi|]. rewrite E. left. reflexivity. }
  rewrite H in Hin. contradiction.
Qed.

End IntroSpec.

Lemma parseParts_intro : forall content,
  fst (parseParts content) = spec_intro (split content LF).
Proof.
  intros content. unfold parseParts, scan_lines, spec_intro. simpl fst.
  rewrite fold_intro by reflexivity. reflexivity.
Qed.

Lemma parseParts_nil_iff : forall content,
  snd (parseParts content) = [] <-> title_pairs (split content LF) = [].
Proof.
  intros content. rewrite <- parseParts_heads. unfold heads.
  destruct (snd (parseParts content)); simpl; split; intros H;
    try reflexivity; discriminate.
Qed.

(** X2: the intro text of a message is made of its non-blank lines that
    come before the first title line, each trimmed and followed by a line
    feed; no line at or after the first title line ever reaches it. *)
Theorem intro_before_first_title : forall content,
  fst (parseParts content) = spec_intro (split content LF).
Proof. exact parseParts_intro. Qed.

(** X3: [PartList] shows the raw text as a fallback exactly when the
    message has no title line.  In that case the intro paragraph above it
    already holds every non-blank line of the message, so the text is on
    screen twice; otherwise there is one card per part. *)
Theorem fallback_iff_no_title : forall content,
  let lines := split content LF in
  (title_pairs lines = [] ->
     body (PartList content) = Fallback content
     /\ fst (parseParts content)
        = flat_map (intro_line lines) (seq 0 (length lines)))
  /\ (title_pairs lines <> [] ->
        body (PartList content)
        = Cards (map (fun p => (p, PartCard p)) (snd (parseParts content)))
        /\ length (snd (parseParts content)) = length (title_pairs lines)).
Proof.
  intros content lines. split.
  - intros Hnil. split.
    + pose proof (proj2 (parseParts_nil_iff content) Hnil) as Hp.
      unfold PartList. destruct (parseParts content) as [it ps].
      simpl in Hp. subst ps. reflexivity.
    + rewrite parseParts_intro. unfold spec_intro. fold lines.
      rewrite until_title_all; [reflexivity|].
      apply title_pairs_nil. exact Hnil.
  - intros Hne. split.
    + assert (Hp : snd (parseParts content) <> []).
      { intros E. apply Hne. apply parseParts_nil_iff. exact E. }
      unfold PartList. destruct (parseParts content) as [it ps].
      simpl in *. destruct ps; [congruence | reflexivity].
    + unfold lines. rewrite <- parseParts_heads. unfold heads.
      rewrite length_map. reflexivity.
Qed.

(** ** Lines are pieces of the message *)

Lemma split_head_prefix : forall s sep,
  exists l ls b, split s sep = l :: ls /\ s = l ++ b.
Proof.
  induction s as [|c s IH]; intros sep; simpl.
  - exists [], [], []. split; reflexivity.
  - destruct (c =? sep)%N.
    + exists [], (split s sep), (c :: s). split; reflexivity.
    + destruct (IH sep) as (l & ls & b & E & Hs). rewrite E.
      exists (c :: l), ls, b. split; [reflexivity|]. simpl. congruence.
Qed.

Lemma split_substring : forall s sep l, In l (split s sep) -> contains s l.
Proof.
  induction s as [|c s IH]; intros sep l Hin; simpl in Hin.
  - destruct Hin as [<-|[]]. exists [], []. reflexivity.
  - destruct (c =? sep)%N.
    + destruct Hin as [<-|Hin].
      * exists [], (c :: s). reflexivity.
      * destruct (IH _ _ Hin) as (a & b & ->). exists (c :: a), b. reflexivity.
    + destruct (split_head_prefix s sep) as (l0 & ls & b & E & Hs).
      rewrite E in Hin. destruct Hin as [<-|Hin].
      * exists [], b. simpl. congruence.
      * assert (Hin' : In l (split s sep)) by (rewrite E; right; exact Hin).
        destruct (IH _ _ Hin') as (a & b' & ->).
        exists (c :: a), b'. reflexivity.
Qed.

Lemma contains_trans : forall s l p, contains s l -> contains l p -> contains s p.
Proof.
  intros s l p (a & b & ->) (a' & b' & ->).
  exists (a ++ a'), (b' ++ b). rewrite <- !app_assoc. reflexivity.
Qed.

Lemma flat_map_nil : forall (A B : Type) (f : A -> list B) l,
  (forall x, In x l -> f x = []) -> flat_map f l = [].
Proof.
  intros A B f l. induction l as [|x l IH]; intros H; simpl; [reflexivity|].
  rewrite (H x (or_introl eq_refl)). apply IH.
  intros y Hy. apply H. right. exact Hy.
Qed.

Lemma no_dollar_no_title : forall content,
  includes content (lit "$") = false -> title_pairs (split content LF) = [].
Proof.
  intros content Hno. unfold title_pairs. apply flat_map_nil. intros i _.
  unfold title_pair.
  destruct (partMatch (trim (nth i (split content LF) []))) as [[g1 g2]|];
    [|reflexivity].
  destruct (nth_error (split content LF) (i + 1)) as [next|] eqn:En;
    [|reflexivity].
  destruct (includes next (lit "$")) eqn:Ei; [|reflexivity].
  exfalso. apply nth_error_In in En. apply split_substring in En.
  apply includes_spec in Ei.
  pose proof (contains_trans _ _ _ En Ei) as Hc.
  apply includes_spec in Hc. congruence.
Qed.

(** X4: a message without a dollar sign never yields a card, whatever else
    it contains: [Product Page:] or [partselect.com] may open the gate, but
    the parser then finds no part and the bubble shows the raw text. *)
Theorem no_dollar_no_cards : forall m : ChatMessage,
  includes (content m) (lit "$") = false ->
  snd (parseParts (content m)) = []
  /\ (MessageBubble m = PlainText (content m)
      \/ exists it, MessageBubble m
                    = Structured {| intro := it; body := Fallback (content m) |}).
Proof.
  intros m Hno.
  assert (Hp : snd (parseParts (content m)) = []).
  { apply parseParts_nil_iff. apply no_dollar_no_title. exact Hno. }
  split; [exact Hp|].
  unfold MessageBubble. destruct (hasPartInfo m); [right | left; reflexivity].
  unfold PartList. destruct (parseParts (content m)) as [it ps].
  simpl in Hp. subst ps. eexists. reflexivity.
Qed.

(** ** Trimmed text *)

Lemma starts_solid_dropWhile : forall s, starts_solid (dropWhile is_space s).
Proof.
  intros s. unfold starts_solid.
  destruct (dropWhile is_space s) as [|c r] eqn:E; [exact I|].
  apply (dropWhile_head _ _ _ _ E).
Qed.

Lemma dropWhile_solid : forall s, starts_solid s -> dropWhile is_space s = s.
Proof.
  intros [|c s] H; simpl; [reflexivity|]. simpl in H. rewrite H. reflexivity.
Qed.

Lemma starts_solid_prefix : forall a b, starts_solid (a ++ b) -> starts_solid a.
Proof. intros [|c a] b H; [exact I | exact H]. Qed.

Lemma starts_solid_trim : forall s, starts_solid (trim s).
Proof.
  intros s. unfold trim, trimEnd, trimStart.
  pose proof (takeWhile_dropWhile is_space (rev (dropWhile is_space s))) as E.
  apply (f_equal (@rev char)) in E. rewrite rev_app_distr, rev_involutive in E.
  apply (starts_solid_prefix _ (rev (takeWhile is_space
                                       (rev (dropWhile is_space s))))).
  rewrite E. apply starts_solid_dropWhile.
Qed.

(** [trim] leaves nothing to trim. *)
Lemma trim_idempotent : forall s, trim (trim s) = trim s.
Proof.
  intros s. pose proof (starts_solid_trim s) as Hs.
  unfold trim at 1. unfold trimStart, trimEnd.
  rewrite (dropWhile_solid _ Hs).
  unfold trim, trimEnd. rewrite rev_involutive.
  rewrite (dropWhile_solid _ (starts_solid_dropWhile _)). reflexivity.
Qed.

Lemma dropWhile_keeps_last : forall l c,
  is_space c = false -> dropWhile is_space (l ++ [c]) <> [].
Proof.
  induction l as [|x l IH]; intros c Hc; simpl.
  - rewrite Hc. discriminate.
  - destruct (is_space x); [apply IH; exact Hc | discriminate].
Qed.

Lemma trim_solid_nonempty : forall c s,
  is_space c = false -> trim (c :: s) <> [].
Proof.
  intros c s Hc. unfold trim, trimStart, trimEnd. simpl dropWhile. rewrite Hc.
  intros E. apply (f_equal (@rev char)) in E. rewrite rev_involutive in E.
  simpl in E.
  destruct (rev s) as [|x r] eqn:Er.
  - simpl in E. rewrite Hc in E. discriminate.
  - simpl in E. destruct (is_space x).
    + exact (dropWhile_keeps_last r c Hc E).
    + discriminate.
Qed.

Lemma title_pair_name : forall lines i nm pn,
  title_pair lines i = Some (nm, pn) ->
  nm <> [] /\ trim nm = nm /\ trim pn = pn.
Proof.
  intros lines i nm pn H. unfold title_pair in H.
  destruct (partMatch (trim (nth i lines []))) as [[g1 g2]|] eqn:Em;
    [|discriminate].
  destruct (nth_error lines (i + 1)) as [next|]; [|discriminate].
  destruct (includes next (lit "$")); [|discriminate].
  injection H as <- <-.
  split; [|split; apply trim_idempotent].
  apply partMatch_spec in Em. destruct Em as [Hsh _].
  apply title_shape_tail in Hsh as (rest & E & Hne & _ & _).
  pose proof (starts_solid_trim (nth i lines [])) as Hs. rewrite E in Hs.
  destruct g1 as [|c g1]; [congruence|].
  apply trim_solid_nonempty. exact Hs.
Qed.

(** X5: every parsed part has a name that is not empty and has no white
    space around it; its part number and its detail lines have no white
    space around them either, and a detail line is never empty. *)
Theorem parts_are_trimmed : forall content p,
  In p (snd (parseParts content)) ->
  name p <> [] /\ trim (name p) = name p
  /\ trim (partNumber p) = partNumber p
  /\ forall d, In d (details p) -> d <> [] /\ trim d = d.
Proof.
  intros content p Hp.
  assert (Hh : In (name p, partNumber p) (title_pairs (split content LF))).
  { rewrite <- parseParts_heads. unfold heads.
    apply (in_map (fun q => (name q, partNumber q))). exact Hp. }
  unfold title_pairs in Hh. apply in_flat_map in Hh as (i & _ & Hi).
  destruct (title_pair (split content LF) i) as [[nm pn]|] eqn:E;
    [|contradiction].
  destruct Hi as [Hi|[]]. injection Hi as -> ->.
  destruct (title_pair_name _ _ _ _ E) as (H1 & H2 & H3).
  repeat split; try assumption.
  - intros ->.
    destruct (parseParts_details content p [] Hp H) as [Hd _].
    vm_compute in Hd. discriminate.
  - destruct (parseParts_details content p d Hp H) as [_ (l & _ & ->)].
    apply trim_idempotent.
Qed.

(** ** The title pattern, once more *)

(** X6: the title pattern [/^(.+?)\s+\(([^)]+)\)\s*$/] matches a line with
    captures [nm] and [id] exactly when the line is [nm], white space, an
    opening parenthesis, [id], a closing parenthesis and optional white
    space, where [nm] is not empty and has no line terminator, [id] is not
    empty and has no closing parenthesis, and no shorter name fits. *)
Theorem title_pattern_meaning : forall line nm id,
  partMatch line = Some (nm, id) <->
  (title_shape line nm id /\
   forall nm' id', title_shape line nm' id' -> length nm <= length nm').
Proof. exact partMatch_spec. Qed.

Lemma title_pattern_meaning_witness :
  title_shape (lit "Ice Maker (white) (PS9 88)")
              (lit "Ice Maker (white)") (lit "PS9 88").
Proof.
  exact (proj1 (proj1 (title_pattern_meaning
                         (lit "Ice Maker (white) (PS9 88)")
                         (lit "Ice Maker (white)") (lit "PS9 88")) eq_refl)).
Defined.

(** ** The card *)

Lemma priceRegex_sound : forall s pr,
  priceRegex s = Some pr ->
  exists a run b,
    s = a ++ DOLLAR :: run ++ b /\ pr = DOLLAR :: run /\ run <> []
    /\ Forall (fun c => is_price_char c = true) run
    /\ ~ price_continues b
    /\ forall a' c b', s = a' ++ DOLLAR :: c :: b' ->
                       is_price_char c = true -> length a <= length a'.
Proof.
  induction s as [|x s IH]; intros pr H; simpl in H; [discriminate|].
  assert (Hrec : priceRegex s = Some pr ->
                 (forall c b', s = c :: b' -> x = DOLLAR -> is_price_char c = false) ->
                 exists a run b,
                   x :: s = a ++ DOLLAR :: run ++ b /\ pr = DOLLAR :: run /\ run <> []
                   /\ Forall (fun c => is_price_char c = true) run
                   /\ ~ price_continues b
                   /\ forall a' c b', x :: s = a' ++ DOLLAR :: c :: b' ->
                                      is_price_char c = true -> length a <= length a').
  { intros Hs Hhead.
    destruct (IH _ Hs) as (a & run & b & -> & -> & Hne & Hrun & Hmax & Hmin).
    exists (x :: a), run, b. repeat split; try assumption.
    intros [|y a'] c b' E Hc.
    - simpl in E. injection E as -> E.
      rewrite (Hhead c b' E eq_refl) in Hc. discriminate.
    - simpl in E. injection E as _ E. simpl.
      specialize (Hmin a' c b' E Hc). lia. }
  destruct (x =? DOLLAR)%N eqn:Ex.
  - apply N.eqb_eq in Ex. subst x.
    pose proof (takeWhile_dropWhile is_price_char s) as Hsplit.
    pose proof (takeWhile_all is_price_char s) as Hall.
    pose proof (dropWhile_head is_price_char s) as Hhd.
    destruct (takeWhile is_price_char s) as [|r0 run] eqn:Et.
    + apply Hrec; [exact H|]. intros c b' -> _.
      simpl in Et. destruct (is_price_char c); [discriminate | reflexivity].
    + injection H as <-.
      exists [], (r0 :: run), (dropWhile is_price_char s).
      repeat split.
      * simpl. rewrite <- Hsplit at 1. reflexivity.
      * discriminate.
      * exact Hall.
      * unfold price_continues.
        destruct (dropWhile is_price_char s) as [|c r] eqn:Ed; [tauto|].
        rewrite (Hhd c r eq_refl). discriminate.
      * intros. simpl. lia.
  - apply Hrec; [exact H|]. intros c b' _ ->. discriminate.
Qed.

Lemma priceRegex_none : forall s,
  priceRegex s = None <->
  (forall a c b, s = a ++ DOLLAR :: c :: b -> is_price_char c = false).
Proof.
  induction s as [|x s IH]; simpl.
  - split; [|reflexivity]. intros _ [|y a] c b E; discriminate.
  - split.
    + intros H [|y a] c b E; simpl in E; injection E as -> E.
      * rewrite N.eqb_refl in H. subst s. simpl in H.
        destruct (is_price_char c); [discriminate | reflexivity].
      * apply (proj1 IH) with (a := a) (b := b); [|exact E].
        destruct (y =? DOLLAR)%N; [|exact H].
        destruct (takeWhile is_price_char s); [exact H | discriminate].
    + intros H.
      assert (Hs : priceRegex s = None).
      { apply IH. intros a c b E. apply (H (x :: a) c b). simpl. congruence. }
      destruct (x =? DOLLAR)%N eqn:Ex; [|exact Hs].
      apply N.eqb_eq in Ex. subst x.
      destruct s as [|c s']; [reflexivity|]. simpl.
      rewrite (H [] c s' eq_refl). exact Hs.
Qed.

(** X7: the price of a card comes from the first detail line that has a
    dollar sign, and from that line only.  When a price is shown it is the
    first dollar sign of that line that is followed by a digit or a dot,
    together with the whole run of digits and dots after it; when no dollar
    sign of that line is followed by a digit or a dot there is no price,
    whatever the later detail lines hold. *)
Theorem price_from_first_dollar_line : forall (p : Part) pre d post,
  details p = pre ++ d :: post ->
  (forall x, In x pre -> includes x (lit "$") = false) ->
  includes d (lit "$") = true ->
  (forall pr, price (PartCard p) = Some pr ->
     exists a run b,
       d = a ++ pr ++ b /\ pr = DOLLAR :: run /\ run <> []
       /\ Forall (fun c => is_price_char c = true) run
       /\ ~ price_continues b
       /\ forall a' c b', d = a' ++ DOLLAR :: c :: b' ->
                          is_price_char c = true -> length a <= length a')
  /\ (price (PartCard p) = None <->
      forall a c b, d = a ++ DOLLAR :: c :: b -> is_price_char c = false).
Proof.
  intros p pre d post Hds Hpre Hd.
  assert (E : price (PartCard p) = priceRegex d).
  { simpl. unfold priceOf. rewrite Hds, (find_first _ pre d post Hpre Hd).
    reflexivity. }
  rewrite E. split.
  - intros pr Hpr.
    destruct (priceRegex_sound _ _ Hpr) as (a & run & b & Hs & -> & H).
    exists a, run, b. split; [exact Hs|]. split; [reflexivity | exact H].
  - apply priceRegex_none.
Qed.

Lemma price_from_first_dollar_line_witness :
  price (PartCard saleThenPrice) = None.
Proof.
  apply (proj2 (price_from_first_dollar_line saleThenPrice []
                  (lit "Save $ today") [lit "$45.00 | Whirlpool | In Stock"]
                  eq_refl (fun x (H : In x []) => match H with end) eq_refl)).
  intros a c b E.
  exact (proj1 (priceRegex_none (lit "Save $ today")) eq_refl a c b E).
Defined.

Lemma split_no_sep : forall f sep,
  Forall (fun c => c <> sep) f -> split f sep = [f].
Proof.
  intros f sep H. induction H as [|c f Hc _ IH]; simpl; [reflexivity|].
  apply N.eqb_neq in Hc. rewrite Hc, IH. reflexivity.
Qed.

Lemma split_app_sep : forall f sep r,
  Forall (fun c => c <> sep) f ->
  split (f ++ sep :: r) sep = f :: split r sep.
Proof.
  intros f sep r H. induction H as [|c f Hc _ IH]; simpl.
  - rewrite N.eqb_refl. reflexivity.
  - apply N.eqb_neq in Hc. rewrite Hc, IH. reflexivity.
Qed.

Lemma includes_pipe : forall f r, includes (f ++ PIPE :: r) (lit "|") = true.
Proof. intros f r. apply includes_spec. exists f, r. reflexivity. Qed.

(** X8: brand and availability come from the first detail line that has a
    pipe.  With exactly one pipe the text after it, trimmed, is the brand
    and there is no availability; with two or more the second field is the
    brand and the third the availability, later fields being ignored; with
    no such line both are absent. *)
Theorem brand_and_availability : forall (p : Part),
  ((forall d, In d (details p) -> includes d (lit "|") = false) ->
   brand (PartCard p) = None /\ availability (PartCard p) = None)
  /\ (forall pre post f0 f1,
        details p = pre ++ (f0 ++ PIPE :: f1) :: post ->
        (forall x, In x pre -> includes x (lit "|") = false) ->
        no_pipe f0 -> no_pipe f1 ->
        brand (PartCard p) = Some (trim f1)
        /\ availability (PartCard p) = None)
  /\ (forall pre post f0 f1 f2 more,
        details p = pre ++ (f0 ++ PIPE :: f1 ++ PIPE :: f2 ++ more) :: post ->
        (forall x, In x pre -> includes x (lit "|") = false) ->
        no_pipe f0 -> no_pipe f1 -> no_pipe f2 ->
        (more = [] \/ exists r, more = PIPE :: r) ->
        brand (PartCard p) = Some (trim f1)
        /\ availability (PartCard p) = Some (trim f2)).
Proof.
  intros p.
  assert (Hfind : forall pre d post,
            details p = pre ++ d :: post ->
            (forall x, In x pre -> includes x (lit "|") = false) ->
            includes d (lit "|") = true ->
            find (fun d : str => includes d (lit "|")) (details p) = Some d).
  { intros pre d post -> Hpre Hd. apply find_first; assumption. }
  split; [|split].
  - intros Hno. cbn [PartCard brand availability].
    unfold brandOf, availabilityOf, brandMatch.
    rewrite (find_absent _ _ Hno). split; reflexivity.
  - intros pre post f0 f1 Hds Hpre H0 H1.
    cbn [PartCard brand availability].
    unfold brandOf, availabilityOf, brandMatch.
    rewrite (Hfind _ _ _ Hds Hpre (includes_pipe f0 f1)).
    cbn [option_map].
    rewrite (split_app_sep _ _ _ H0), (split_no_sep _ _ H1).
    split; reflexivity.
  - intros pre post f0 f1 f2 more Hds Hpre H0 H1 H2 Hmore.
    cbn [PartCard brand availability].
    unfold brandOf, availabilityOf, brandMatch.
    rewrite (Hfind _ _ _ Hds Hpre (includes_pipe f0 _)).
    cbn [option_map].
    rewrite (split_app_sep _ _ _ H0), (split_app_sep _ _ _ H1).
    destruct Hmore as [->|[r ->]].
    + rewrite app_nil_r, (split_no_sep _ _ H2). split; reflexivity.
    + rewrite (split_app_sep _ _ _ H2). split; reflexivity.
Qed.

Lemma brand_and_availability_witness :
  brand (PartCard brandOnly) = Some (lit "Whirlpool")
  /\ availability (PartCard brandOnly) = None.
Proof.
  refine (proj1 (proj2 (brand_and_availability brandOnly))
            [] [] (lit "$45.00 ") (lit " Whirlpool") eq_refl
            (fun x (H : In x []) => match H with end) _ _);
    unfold no_pipe; repeat constructor; discriminate.
Defined.

(** X9: what the card shows of availability and of the links.  The green
    in-stock line and the yellow availability chip are never shown
    together; the in-stock line needs a price, so an availability that
    says [In Stock] is not shown at all on a card without price; the
    product link is never empty; and the video link, when shown, is the
    derived video URL, not empty and free of [[Not Available]]. *)
Theorem card_display : forall (p : Part),
  let c := PartCard p in
  let v := renderCard c in
  (inStockLine v = None \/ availabilityChip v = None)
  /\ (forall a, inStockLine v = Some a ->
        priceBlock v <> None /\ availability c = Some a
        /\ contains a (lit "In Stock"))
  /\ (forall a, availability c = Some a -> includes a (lit "In Stock") = true ->
        price c = None ->
        inStockLine v = None /\ availabilityChip v = None)
  /\ (forall u, productLink v = Some u -> u <> [] /\ productUrl c = Some u)
  /\ (forall u, videoLink v = Some u ->
        u <> [] /\ videoUrl c = Some u /\ ~ contains u (lit "[Not Available]")).
Proof.
  intros p c v. subst v. unfold renderCard. cbn [inStockLine availabilityChip
    priceBlock productLink videoLink].
  assert (Hshown : forall x u, shown x = Some u -> u <> [] /\ x = Some u).
  { intros [[|ch s]|] u H; simpl in H; try discriminate.
    injection H as <-. split; [discriminate | reflexivity]. }
  repeat split.
  - destruct (shown (price c)); [|left; reflexivity].
    destruct (shown (availability c)) as [a|]; [|left; reflexivity].
    destruct (includes a (lit "In Stock")); [right | left]; reflexivity.
  - destruct (shown (price c)); [discriminate | discriminate].
  - destruct (shown (price c)); [|discriminate].
    destruct (shown (availability c)) as [a'|] eqn:Ea; [|discriminate].
    destruct (includes a' (lit "In Stock")); [|discriminate].
    injection H as <-. apply (Hshown _ _ Ea).
  - destruct (shown (price c)); [|discriminate].
    destruct (shown (availability c)) as [a'|] eqn:Ea; [|discriminate].
    destruct (includes a' (lit "In Stock")) eqn:Ei; [|discriminate].
    injection H as <-. apply includes_spec. exact Ei.
  - rewrite H1. reflexivity.
  - rewrite H. unfold shown. destruct (truthy a); [|reflexivity].
    rewrite H0. reflexivity.
  - apply (Hshown _ _ H).
  - apply (Hshown _ _ H).
  - subst c. simpl in H. unfold hasVideoOf in H.
    destruct (videoUrlOf (details p)) as [w|]; [|discriminate].
    destruct (truthy w) eqn:Ew; [|discriminate]. simpl in H.
    destruct (negb (includes w (lit "[Not Available]"))); [|discriminate].
    injection H as <-. intros ->. discriminate.
  - subst c. simpl in H. unfold hasVideoOf in H. simpl.
    destruct (videoUrlOf (details p)) as [w|]; [|discriminate].
    destruct (truthy w && negb (includes w (lit "[Not Available]")));
      [exact H | discriminate].
  - subst c. simpl in H. unfold hasVideoOf in H.
    destruct (videoUrlOf (details p)) as [w|]; [|discriminate].
    destruct (truthy w); [|discriminate]. simpl in H.
    destruct (includes w (lit "[Not Available]")) eqn:Ei; [discriminate|].
    injection H as <-. intros Hc. apply includes_spec in Hc. congruence.
Qed.

Lemma card_display_witness :
  inStockLine (renderCard (PartCard inStockNoPrice)) = None
  /\ availabilityChip (renderCard (PartCard inStockNoPrice)) = None.
Proof.
  exact (proj1 (proj2 (proj2 (card_display inStockNoPrice)))
           (lit "In Stock") eq_refl eq_refl eq_refl).
Defined.

(** ** More on the session and the message log *)

Lemma dropWhile_nil : forall f s,
  dropWhile f s = [] -> Forall (fun c => f c = true) s.
Proof.
  intros f s. induction s as [|c s IH]; simpl; intros H; [constructor|].
  destruct (f c) eqn:E; [|discriminate]. constructor; [exact E | apply IH, H].
Qed.

Lemma dropWhile_all : forall f s,
  Forall (fun c => f c = true) s -> dropWhile f s = [].
Proof.
  intros f s H. induction H as [|c s Hc _ IH]; simpl; [reflexivity|].
  rewrite Hc. exact IH.
Qed.

(** A string trims to nothing exactly when it is all white space. *)
Lemma trim_empty_iff : forall s,
  trim s = [] <-> Forall (fun c => is_space c = true) s.
Proof.
  intros s. unfold trim, trimEnd, trimStart. split.
  - intros H. apply (f_equal (@rev char)) in H. rewrite rev_involutive in H.
    simpl in H. apply dropWhile_nil in H.
    pose proof (starts_solid_dropWhile s) as Hs.
    destruct (dropWhile is_space s) as [|c u] eqn:E.
    + apply dropWhile_nil. exact E.
    + simpl in Hs. rewrite Forall_forall in H.
      rewrite (H c) in Hs; [discriminate|].
      apply in_rev. rewrite rev_involutive. left. reflexivity.
  - intros H. rewrite (dropWhile_all _ _ H). reflexivity.
Qed.

Lemma not_blank : forall s,
  truthy (trim s) = true -> exists ch, In ch s /\ is_space ch = false.
Proof.
  intros s H. induction s as [|c s IH].
  - discriminate.
  - destruct (is_space c) eqn:Ec.
    + destruct IH as (ch & Hin & Hch).
      * destruct (trim s) as [|x t] eqn:Et; [|reflexivity].
        apply trim_empty_iff in Et.
        assert (E : trim (c :: s) = []).
        { apply trim_empty_iff. constructor; assumption. }
        rewrite E in H. discriminate.
      * exists ch. split; [right; exact Hin | exact Hch].
    + exists c. split; [left; reflexivity | exact Ec].
Qed.

(** X10: an input made of white space only (spaces, tabs, line breaks) is
    never sent: the send leaves every state cell as it is and issues no
    call. *)
Theorem blank_input_never_sends : forall sys now,
  Forall (fun c => is_space c = true) (input (ui sys)) ->
  handleSend now (ui sys) = (ui sys, None)
  /\ step (ClickSend now) sys = Some sys.
Proof.
  intros sys now H. apply trim_empty_iff in H.
  assert (E : handleSend now (ui sys) = (ui sys, None)).
  { unfold handleSend. rewrite H. reflexivity. }
  split; [exact E|]. simpl. rewrite E. destruct sys; reflexivity.
Qed.

Lemma step_calls : forall e sys sys',
  step e sys = Some sys' ->
  exists cs, calls sys' = calls sys ++ cs /\ Forall well_formed_call cs.
Proof.
  intros e sys sys' H. destruct e as [now|text| |i o now]; simpl in H.
  - unfold handleSend in H.
    destruct (truthy (trim (input (ui sys)))) eqn:Et; simpl in H.
    + destruct (loading (ui sys)); injection H as <-; simpl.
      * exists []. rewrite app_nil_r. split; [reflexivity | constructor].
      * eexists. split; [reflexivity|]. constructor; [|constructor].
        simpl. split; [apply not_blank; exact Et|].
        split; [reflexivity|]. split; [reflexivity|].
        unfold orUndefined. destruct (sessionId (ui sys)) as [[|c sid]|];
          simpl; try exact I. discriminate.
    + injection H as <-. simpl.
      exists []. rewrite app_nil_r. split; [reflexivity | constructor].
  - injection H as <-. simpl.
    exists []. rewrite app_nil_r. split; [reflexivity | constructor].
  - unfold resetChat, orUndefined in H.
    destruct (sessionId (ui sys)) as [[|c sid]|]; simpl in H;
      injection H as <-; simpl; eexists; (split; [reflexivity|]);
      constructor; simpl; try exact I; try constructor. discriminate.
  - unfold settle in H.
    destruct (nth_error (inflight sys) i) as [t|]; [|discriminate].
    destruct t, o; try discriminate; injection H as <-; simpl;
      try (exists []; rewrite app_nil_r; split; [reflexivity | constructor]).
    eexists. split; [reflexivity|]. constructor; [exact I | constructor].
Qed.

(** X11: every call the component ever issues is well formed: a chat
    request carries a message with at least one character that is not
    white space, asks for validation with threshold 70 and never names
    the empty string as session id; a delete call never names the empty
    string either. *)
Theorem calls_are_well_formed : forall es sys,
  run es system0 = Some sys -> Forall well_formed_call (calls sys).
Proof.
  intros es.
  assert (Hgen : forall sys0 sys, Forall well_formed_call (calls sys0) ->
                   run es sys0 = Some sys -> Forall well_formed_call (calls sys)).
  { induction es as [|e es IH]; intros sys0 sys Hinv Hrun; simpl in Hrun.
    - injection Hrun as <-. exact Hinv.
    - destruct (step e sys0) as [sys1|] eqn:Es; [|discriminate].
      apply (IH sys1 sys); [|exact Hrun].
      destruct (step_calls _ _ _ Es) as (cs & -> & Hcs).
      apply Forall_app. split; assumption. }
  intros sys Hrun. apply (Hgen system0 sys); [|exact Hrun].
  constructor; [exact I | constructor].
Qed.

Lemma calls_are_well_formed_witness :
  Forall well_formed_call
    [ApiCreateSession;
     ApiChat {| message := lit "hi"; req_session_id := Some (lit "A");
                enable_validation := Some true;
                validation_threshold := Some 70%Z |};
     ApiDeleteSession (lit "A")].
Proof.
  exact (calls_are_well_formed
           (oneExchange ++ [ClickReset; Settle 0 (Rejected None) 3])
           _ eq_refl).
Defined.

Lemma step_loading : forall e sys sys',
  loading_in_step sys -> step e sys = Some sys' -> loading_in_step sys'.
Proof.
  intros e sys sys' Hinv Hstep. unfold loading_in_step, outstanding in *.
  destruct e as [now|text| |i o now]; simpl in Hstep.
  - destruct (handleSend_cases now (ui sys))
      as [[E _]|(s' & c & held & E & Hl & Hl')]; rewrite E in Hstep;
      injection Hstep as <-; simpl.
    + exact Hinv.
    + rewrite filter_app, length_app, Hinv, Hl, Hl'. reflexivity.
  - injection Hstep as <-. exact Hinv.
  - destruct (resetChat (ui sys)) as [c t] eqn:Er.
    injection Hstep as <-. simpl.
    assert (Ht : is_chat t = false).
    { unfold resetChat in Er. destruct (orUndefined (sessionId (ui sys)));
        injection Er as _ <-; reflexivity. }
    rewrite filter_app, length_app. simpl. rewrite Ht. simpl.
    rewrite Nat.add_0_r. exact Hinv.
  - unfold settle in Hstep.
    destruct (nth_error (inflight sys) i) as [t|] eqn:En; [|discriminate].
    pose proof (filter_remove_nth _ _ _ En) as Hcount.
    destruct t, o; try discriminate; injection Hstep as <-; simpl in *;
      try rewrite filter_app, length_app; simpl;
      destruct (loading (ui sys)); lia.
Qed.

(** X12: in every state the component can reach after mount, the loading
    flag is set exactly when a chat call is outstanding; so the send guard
    cannot stay closed once the call has settled, and cannot be open
    while one is pending. *)
Theorem loading_tracks_chat : forall es sys,
  run es system0 = Some sys ->
  (loading (ui sys) = true <-> outstanding sys = 1)
  /\ (loading (ui sys) = false <-> outstanding sys = 0).
Proof.
  intros es.
  assert (Hgen : forall sys0 sys, loading_in_step sys0 ->
                   run es sys0 = Some sys -> loading_in_step sys).
  { induction es as [|e es IH]; intros sys0 sys Hinv Hrun; simpl in Hrun.
    - injection Hrun as <-. exact Hinv.
    - destruct (step e sys0) as [sys1|] eqn:Es; [|discriminate].
      apply (IH sys1 sys); [|exact Hrun].
      eapply step_loading; eassumption. }
  intros sys Hrun.
  assert (Hinv : loading_in_step sys).
  { apply (Hgen system0 sys); [reflexivity | exact Hrun]. }
  unfold loading_in_step in Hinv.
  destruct (loading (ui sys)); rewrite Hinv; repeat split;
    intros; try reflexivity; try discriminate.
Qed.

Lemma loading_tracks_chat_witness :
  (loading (ui pendingSys) = true <-> outstanding pendingSys = 1)
  /\ (loading (ui pendingSys) = false <-> outstanding pendingSys = 0).
Proof.
  exact (loading_tracks_chat
           [Settle 0 (CreateResolved (lit "A")) 0; TypeInput (lit "hi");
            ClickSend 1; TypeInput (lit "again")]
           pendingSys eq_refl).
Defined.

Lemma blank_input_never_sends_witness :
  step (ClickSend 4)
       {| ui := setInput (lit "  ") (ui activeSys); inflight := [];
          calls := [ApiCreateSession]; console := [] |}
  = Some {| ui := setInput (lit "  ") (ui activeSys); inflight := [];
            calls := [ApiCreateSession]; console := [] |}.
Proof.
  refine (proj2 (blank_input_never_sends
                   {| ui := setInput (lit "  ") (ui activeSys); inflight := [];
                      calls := [ApiCreateSession]; console := [] |} 4%Z _)).
  repeat constructor.
Defined.

(** X13: the log only grows at its end, by at most one message per event;
    the one exception is a session creation that resolves (at start-up or
    in a reset), which replaces the whole log by a single welcome
    message.  No event removes, reorders or edits a message. *)
Theorem log_append_only : forall e sys sys',
  step e sys = Some sys' ->
  (exists added,
      messages (ui sys') = messages (ui sys) ++ added /\ length added <= 1)
  \/ (exists i sid now,
        e = Settle i (CreateResolved sid) now
        /\ (messages (ui sys') = [welcomeMessage now]
            \/ messages (ui sys') = [resetMessage now])).
Proof.
  intros e sys sys' H. destruct e as [now|text| |i o now]; simpl in H.
  - left. destruct (handleSend_cases now (ui sys))
      as [[E _]|(s' & c & held & E & Hl & _)].
    + rewrite E in H. injection H as <-. simpl.
      exists []. rewrite app_nil_r. split; [reflexivity | simpl; lia].
    + assert (Hs' : messages s'
                    = messages (ui sys) ++ [userMessage (input (ui sys)) now]).
      { unfold handleSend in E.
        destruct (negb (truthy (trim (input (ui sys)))) || loading (ui sys));
          [discriminate|]. injection E as <- _ _. reflexivity. }
      rewrite E in H. injection H as <-. simpl. rewrite Hs'.
      eexists. split; [reflexivity | simpl; lia].
  - left. injection H as <-. simpl.
    exists []. rewrite app_nil_r. split; [reflexivity | simpl; lia].
  - left. destruct (resetChat (ui sys)) as [c t]. injection H as <-. simpl.
    exists []. rewrite app_nil_r. split; [reflexivity | simpl; lia].
  - unfold settle in H.
    destruct (nth_error (inflight sys) i) as [t|]; [|discriminate].
    destruct t, o; try discriminate; injection H as <-; simpl;
      try (left; exists []; rewrite app_nil_r;
           split; [reflexivity | simpl; lia]);
      try (left; eexists; split; [reflexivity | simpl; lia]).
    + right. exists i, data_session_id, now.
      split; [reflexivity | left; reflexivity].
    + right. exists i, data_session_id, now.
      split; [reflexivity | right; reflexivity].
Qed.

Lemma log_append_only_witness :
  (exists added,
      messages (ui pendingSys) = messages (ui activeSys) ++ added
      /\ length added <= 1)
  \/ (exists i sid now,
        ClickSend 1 = Settle i (CreateResolved sid) now
        /\ (messages (ui pendingSys) = [welcomeMessage now]
            \/ messages (ui pendingSys) = [resetMessage now])).
Proof.
  exact (log_append_only (ClickSend 1) activeSys
           {| ui := setInput [] (ui pendingSys);
              inflight := inflight pendingSys;
              calls := calls pendingSys; console := [] |} eq_refl).
Defined.

(** X14: a chat call that resolves appends exactly one assistant message
    carrying the response text and the validation score, clears the
    loading flag and leaves banner and input alone.  A send that runs from
    click to response turns the log [l] into [l] followed by the user's
    message and the reply, empties the input, clears the banner, issues
    one chat request with the typed text, the held session id and
    validation on, and leaves the response's session id stored. *)
Theorem send_success :
  (forall sys i held r now,
      nth_error (inflight sys) i = Some (SendAwaitChat held) ->
      exists sys',
        step (Settle i (ChatResolved r) now) sys = Some sys'
        /\ messages (ui sys') = messages (ui sys) ++ [assistantMessage r]
        /\ role (assistantMessage r) = assistant
        /\ content (assistantMessage r) = response r
        /\ validationScore (assistantMessage r) = validation_score r
        /\ loading (ui sys') = false
        /\ error (ui sys') = error (ui sys)
        /\ input (ui sys') = input (ui sys)
        /\ calls sys' = calls sys)
  /\ (forall sys r t0 now,
        truthy (trim (input (ui sys))) = true -> loading (ui sys) = false ->
        exists sys',
          run [ClickSend t0; Settle (length (inflight sys)) (ChatResolved r) now] sys
          = Some sys'
          /\ messages (ui sys')
             = messages (ui sys)
               ++ [userMessage (input (ui sys)) t0; assistantMessage r]
          /\ input (ui sys') = []
          /\ loading (ui sys') = false
          /\ error (ui sys') = None
          /\ sessionId (ui sys') = Some (session_id r)
          /\ calls sys'
             = calls sys
               ++ [ApiChat {| message := input (ui sys);
                              req_session_id := orUndefined (sessionId (ui sys));
                              enable_validation := Some true;
                              validation_threshold := Some 70%Z |}]
          /\ inflight sys' = inflight sys).
Proof.
  split.
  - intros sys i held r now Hn.
    eexists. split; [resume Hn|]. repeat split.
  - intros sys r t0 now Ht Hl. eexists. split.
    + cbn [run]. unfold step at 1, handleSend. rewrite Ht, Hl.
      cbn [negb orb step]. unfold settle. cbn [inflight].
      rewrite nth_error_last, remove_nth_last. reflexivity.
    + cbn [ui messages input loading error sessionId calls inflight
             handleSend_resolved].
      rewrite <- app_assoc. repeat split.
      destruct (differs (session_id r) (sessionId (ui sys))) eqn:D;
        [reflexivity|]. apply differs_false in D. symmetry. exact D.
Qed.

Lemma send_success_witness :
  exists sys',
    run [ClickSend 1; Settle 0 (ChatResolved reply) 2] activeSys = Some sys'
    /\ messages (ui sys')
       = [welcomeMessage 0; userMessage (lit "hi") 1; assistantMessage reply]
    /\ input (ui sys') = []
    /\ sessionId (ui sys') = Some (lit "A").
Proof.
  destruct (proj2 send_success activeSys reply 1%Z 2%Z eq_refl eq_refl)
    as (sys' & Hr & Hm & Hi & _ & _ & Hs & _).
  exists sys'. repeat split; assumption.
Defined.

(** X15: when the session creation at start-up rejects, the banner is
    set, no session id is held and the log is empty.  The next send goes
    out all the same, without a session id, and clears the banner; when
    its call resolves the session id of the response is stored. *)
Theorem init_failure_then_send : forall m t text t0 r now,
  truthy (trim text) = true ->
  run [Settle 0 (Rejected m) t] system0
  = Some {| ui := {| messages := []; input := []; loading := false;
                     sessionId := None;
                     error := Some (lit "Failed to connect to the server. Please try again.") |};
            inflight := []; calls := [ApiCreateSession];
            console := [lit "Failed to create session:"] |}
  /\ run [Settle 0 (Rejected m) t; TypeInput text; ClickSend t0] system0
     = Some {| ui := {| messages := [userMessage text t0]; input := [];
                        loading := true; sessionId := None; error := None |};
               inflight := [SendAwaitChat None];
               calls := [ApiCreateSession;
                         ApiChat {| message := text; req_session_id := None;
                                    enable_validation := Some true;
                                    validation_threshold := Some 70%Z |}];
               console := [lit "Failed to create session:"] |}
  /\ run [Settle 0 (Rejected m) t; TypeInput text; ClickSend t0;
          Settle 0 (ChatResolved r) now] system0
     = Some {| ui := {| messages := [userMessage text t0; assistantMessage r];
                        input := []; loading := false;
                        sessionId := Some (session_id r); error := None |};
               inflight := [];
               calls := [ApiCreateSession;
                         ApiChat {| message := text; req_session_id := None;
                                    enable_validation := Some true;
                                    validation_threshold := Some 70%Z |}];
               console := [lit "Failed to create session:"] |}.
Proof.
  intros m t text t0 r now Ht.
  split; [reflexivity|].
  split; cbn [run step settle system0 inflight ui nth_error setInput];
    unfold handleSend; cbn [input loading setInput]; rewrite Ht; reflexivity.
Qed.

Lemma init_failure_then_send_witness :
  run [Settle 0 (Rejected None) 0; TypeInput (lit "hi"); ClickSend 1] system0
  = Some {| ui := {| messages := [userMessage (lit "hi") 1]; input := [];
                     loading := true; sessionId := None; error := None |};
            inflight := [SendAwaitChat None];
            calls := [ApiCreateSession;
                      ApiChat {| message := lit "hi"; req_session_id := None;
                                 enable_validation := Some true;
                                 validation_threshold := Some 70%Z |}];
            console := [lit "Failed to create session:"] |}.
Proof.
  exact (proj1 (proj2 (init_failure_then_send None 0%Z (lit "hi") 1%Z reply 2%Z
                         eq_refl))).
Defined.

(** X16: when no session id is held (none was ever stored, or the stored
    one is the empty string), [resetChat] issues no delete call: it goes
    straight to the create call.  If that resolves the new id is stored,
    the log is the single reset message and the banner is cleared; if it
    rejects nothing changes but the console. *)
Theorem reset_without_session : forall sys,
  orUndefined (sessionId (ui sys)) = None ->
  (forall new now,
      run [ClickReset; Settle (length (inflight sys)) (CreateResolved new) now] sys
      = Some {| ui := {| messages := [resetMessage now];
                         input := input (ui sys);
                         loading := loading (ui sys);
                         sessionId := Some new;
                         error := None |};
                inflight := inflight sys;
                calls := calls sys ++ [ApiCreateSession];
                console := console sys |})
  /\ (forall m t,
        run [ClickReset; Settle (length (inflight sys)) (Rejected m) t] sys
        = Some {| ui := ui sys;
                  inflight := inflight sys;
                  calls := calls sys ++ [ApiCreateSession];
                  console := console sys ++ [lit "Failed to reset chat:"] |}).
Proof.
  intros sys Hnone.
  assert (Hr : resetChat (ui sys) = (ApiCreateSession, ResetAwaitCreate)).
  { unfold resetChat. rewrite Hnone. reflexivity. }
  split; intros;
    cbn [run]; unfold step at 1; rewrite Hr; cbn [step];
    unfold settle at 1; cbn [inflight];
    rewrite nth_error_last, remove_nth_last; reflexivity.
Qed.

Lemma reset_without_session_witness :
  run [Settle 0 (Rejected None) 0; ClickReset; Settle 0 (CreateResolved (lit "B")) 5]
      system0
  = Some {| ui := {| messages := [resetMessage 5]; input := [];
                     loading := false; sessionId := Some (lit "B");
                     error := None |};
            inflight := [];
            calls := [ApiCreateSession; ApiCreateSession];
            console := [lit "Failed to create session:"] |}.
Proof.
  exact (proj1 (reset_without_session
                  {| ui := {| messages := []; input := []; loading := false;
                              sessionId := None;
                              error := Some (lit "Failed to connect to the server. Please try again.") |};
                     inflight := []; calls := [ApiCreateSession];
                     console := [lit "Failed to create session:"] |}
                  eq_refl) (lit "B") 5%Z).
Defined.

Lemma nth_error_remove_nth_lt : forall (ts : list Task) i j t,
  i < j -> nth_error ts i = Some t -> nth_error (remove_nth j ts) i = Some t.
Proof.
  intros ts i j t Hlt Hn. unfold remove_nth.
  assert (Hi : i < length ts) by (apply nth_error_Some; congruence).
  rewrite nth_error_app1 by (rewrite length_firstn; lia).
  rewrite nth_error_firstn.
  replace (i <? j)%nat with true by (symmetry; apply Nat.ltb_lt; exact Hlt).
  exact Hn.
Qed.

Lemma nth_error_remove_nth_gt : forall (ts : list Task) i j t,
  j < i -> nth_error ts i = Some t ->
  nth_error (remove_nth j ts) (i - 1) = Some t.
Proof.
  intros ts i j t Hlt Hn. unfold remove_nth.
  assert (Hi : i < length ts) by (apply nth_error_Some; congruence).
  assert (Hlen : length (firstn j ts) = j) by (rewrite length_firstn; lia).
  rewrite nth_error_app2 by lia.
  rewrite nth_error_skipn, Hlen.
  replace (S j + (i - 1 - j)) with i by lia.
  exact Hn.
Qed.

(** Where the handler at place [i] is found once the one at place [j]
    has left the pending list. *)
Lemma nth_error_remove_nth_other : forall (ts : list Task) i j t,
  i <> j -> nth_error ts i = Some t ->
  nth_error (remove_nth j ts) (if (i <? j)%nat then i else i - 1) = Some t.
Proof.
  intros ts i j t Hne Hn. destruct (i <? j)%nat eqn:E.
  - apply Nat.ltb_lt in E. apply nth_error_remove_nth_lt; assumption.
  - apply Nat.ltb_ge in E. apply nth_error_remove_nth_gt; [lia | exact Hn].
Qed.

(** X17: a reset does not cancel a send that is under way.  When the
    reset's create call resolves while a chat call is still pending,
    whether the send was started before the reset or while the reset was
    waiting, the reply that arrives afterwards is appended to the fresh
    log, right after the reset message, and the loading flag is cleared
    then.  (The chat handler keeps its place in the pending list when it
    stood before the reset's and moves up by one otherwise.) *)
Theorem stale_reply_in_fresh_log : forall sys i j held r new t1 t2,
  nth_error (inflight sys) i = Some (SendAwaitChat held) ->
  nth_error (inflight sys) j = Some ResetAwaitCreate ->
  exists sys',
    run [Settle j (CreateResolved new) t1;
         Settle (if (i <? j)%nat then i else i - 1) (ChatResolved r) t2] sys
    = Some sys'
    /\ messages (ui sys') = [resetMessage t1; assistantMessage r]
    /\ loading (ui sys') = false
    /\ sessionId (ui sys')
       = (if differs (session_id r) held then Some (session_id r) else Some new)
    /\ calls sys' = calls sys.
Proof.
  intros sys i j held r new t1 t2 Hi Hj.
  assert (Hne : i <> j) by (intros ->; congruence).
  eexists. split.
  - cbn [run step]. unfold settle at 1. rewrite Hj.
    unfold settle. cbn [inflight].
    rewrite (nth_error_remove_nth_other _ _ _ _ Hne Hi). reflexivity.
  - repeat split.
Qed.

Lemma stale_reply_in_fresh_log_witness :
  (exists sys',
     run [Settle 1 (CreateResolved (lit "B")) 3; Settle 0 (ChatResolved reply) 4]
         {| ui := ui pendingSys;
            inflight := [SendAwaitChat (Some (lit "A")); ResetAwaitCreate];
            calls := calls pendingSys; console := [] |}
     = Some sys'
     /\ messages (ui sys') = [resetMessage 3; assistantMessage reply]
     /\ sessionId (ui sys') = Some (lit "B"))
  /\ (exists sys',
        run [Settle 0 (CreateResolved (lit "B")) 3; Settle 0 (ChatResolved reply) 4]
            {| ui := ui pendingSys;
               inflight := [ResetAwaitCreate; SendAwaitChat (Some (lit "A"))];
               calls := calls pendingSys; console := [] |}
        = Some sys'
        /\ messages (ui sys') = [resetMessage 3; assistantMessage reply]
        /\ sessionId (ui sys') = Some (lit "B")).
Proof.
  split.
  - destruct (stale_reply_in_fresh_log
                {| ui := ui pendingSys;
                   inflight := [SendAwaitChat (Some (lit "A")); ResetAwaitCreate];
                   calls := calls pendingSys; console := [] |}
                0 1 (Some (lit "A")) reply (lit "B") 3%Z 4%Z eq_refl eq_refl)
      as (sys' & Hr & Hm & _ & Hs & _).
    exists sys'. repeat split; assumption.
  - destruct (stale_reply_in_fresh_log
                {| ui := ui pendingSys;
                   inflight := [ResetAwaitCreate; SendAwaitChat (Some (lit "A"))];
                   calls := calls pendingSys; console := [] |}
                1 0 (Some (lit "A")) reply (lit "B") 3%Z 4%Z eq_refl eq_refl)
      as (sys' & Hr & Hm & _ & Hs & _).
    exists sys'. repeat split; assumption.
Defined.

(** ** Witnesses for the parser properties *)

Lemma fallback_iff_no_title_witness :
  (body (PartList blankSeparated) = Fallback blankSeparated
   /\ fst (parseParts blankSeparated)
      = lit "Door Bin (PS123)" ++ [LF] ++ lit "$45.00" ++ [LF])
  /\ length (snd (parseParts twoParts)) = 2.
Proof.
  split.
  - exact (proj1 (fallback_iff_no_title blankSeparated) eq_refl).
  - refine (proj2 (proj2 (fallback_iff_no_title twoParts) _)).
    discriminate.
Defined.

Lemma no_dollar_no_cards_witness :
  snd (parseParts (content titleWithoutPrice)) = [].
Proof. exact (proj1 (no_dollar_no_cards titleWithoutPrice eq_refl)). Defined.

Lemma parts_are_trimmed_witness :
  name doorBinPart <> [] /\ trim (name doorBinPart) = name doorBinPart.
Proof.
  destruct (parts_are_trimmed doorBin doorBinPart) as (H1 & H2 & _).
  - vm_compute. left. reflexivity.
  - split; assumption.
Defined.

(** X18: the content gate never hides a part.  An assistant message with
    at least one title line is always rendered as cards, one per title
    line; a user message is always rendered as plain text, even when its
    text would parse into parts. *)
Theorem rendering_by_role : forall m : ChatMessage,
  (role m = user -> MessageBubble m = PlainText (content m))
  /\ (role m = assistant ->
      title_pairs (split (content m) LF) <> [] ->
      exists it,
        MessageBubble m
        = Structured
            {| intro := it;
               body := Cards (map (fun p => (p, PartCard p))
                                  (snd (parseParts (content m)))) |}
        /\ length (snd (parseParts (content m)))
           = length (title_pairs (split (content m) LF))).
Proof.
  intros m. split.
  - intros Hr. unfold MessageBubble, hasPartInfo, isUser. rewrite Hr.
    reflexivity.
  - intros Hr Hne.
    assert (Hd : includes (content m) (lit "$") = true).
    { destruct (includes (content m) (lit "$")) eqn:E; [reflexivity|].
      elim Hne. apply no_dollar_no_title. exact E. }
    assert (Hp : snd (parseParts (content m)) <> []).
    { intros E. apply Hne. apply parseParts_nil_iff. exact E. }
    assert (Hg : hasPartInfo m = true).
    { unfold hasPartInfo, isUser. rewrite Hr, Hd. reflexivity. }
    unfold MessageBubble. rewrite Hg. unfold PartList.
    rewrite <- parseParts_heads. unfold heads. rewrite length_map.
    destruct (parseParts (content m)) as [it ps]. cbn [snd] in *.
    destruct ps as [|q ps]; [congruence|].
    eexists. split; reflexivity.
Qed.

Lemma rendering_by_role_witness :
  MessageBubble {| role := user; content := doorBin; timestamp := DateNow 0;
                   validationScore := None |}
  = PlainText doorBin.
Proof.
  exact (proj1 (rendering_by_role
                  {| role := user; content := doorBin; timestamp := DateNow 0;
                     validationScore := None |}) eq_refl).
Defined.

(** X19: the video URL of a card is taken from the first detail line that
    contains [Installation Video:], with the first occurrence of that
    marker removed and the result trimmed; the card has a playable video
    exactly when that URL is not empty and does not contain
    [[Not Available]].  Without such a line there is neither. *)
Theorem video_url_and_flag : forall (p : Part),
  ((forall d, In d (details p) ->
              includes d (lit "Installation Video:") = false) ->
   videoUrl (PartCard p) = None /\ hasVideo (PartCard p) = false)
  /\ (forall pre d post a b,
        details p = pre ++ d :: post ->
        (forall x, In x pre -> includes x (lit "Installation Video:") = false) ->
        first_occurrence d (lit "Installation Video:") a b ->
        videoUrl (PartCard p) = Some (trim (a ++ b))
        /\ (hasVideo (PartCard p) = true <->
            trim (a ++ b) <> []
            /\ ~ contains (trim (a ++ b)) (lit "[Not Available]"))).
Proof.
  intros p. split.
  - intros Hno. cbn [PartCard videoUrl hasVideo].
    unfold hasVideoOf, videoUrlOf. rewrite (find_absent _ _ Hno).
    split; reflexivity.
  - intros pre d post a b Hds Hpre Hocc.
    assert (Hd : includes d (lit "Installation Video:") = true).
    { apply includes_spec. destruct Hocc as [-> _]. exists a, b. reflexivity. }
    assert (E : videoUrlOf (details p) = Some (trim (a ++ b))).
    { unfold videoUrlOf. rewrite Hds.
      replace (find (fun d0 : str => includes d0 (lit "Installation Video:"))
                    (pre ++ d :: post)) with (Some d)
        by (symmetry; apply find_first; assumption).
      cbn [option_map].
      rewrite (replace_first_occurrence _ _ _ _ _ Hocc). reflexivity. }
    cbn [PartCard videoUrl hasVideo]. unfold hasVideoOf. rewrite E.
    split; [reflexivity|].
    rewrite andb_true_iff, negb_true_iff. split.
    + intros [Ht Hi]. split.
      * intros Hnil. rewrite Hnil in Ht. discriminate.
      * intros Hc. apply includes_spec in Hc. congruence.
    + intros [Hne Hnc]. split.
      * destruct (trim (a ++ b)); [congruence | reflexivity].
      * apply not_contains_includes. exact Hnc.
Qed.

Lemma video_url_and_flag_witness :
  videoUrl (PartCard doorBinPart) = None
  /\ hasVideo (PartCard doorBinPart) = false.
Proof.
  apply (proj1 (video_url_and_flag doorBinPart)).
  intros d [<-|[<-|[]]]; reflexivity.
Defined.
